(** * Dual-engine key-value store: B+Tree and LSM engines

    A shallow embedding of [bplus_tree.py] and [lsm_tree.py] (and of the
    in-memory LSM variant of [app.py]), with the properties of the storage
    contract proved or refuted on it.

    Conventions.
    - A Python [str] is a [string]; a character is a code point below 256.
      Comparisons [<], [<=], [==] on [str] are the lexicographic ones of
      [String.ltb], [String.leb], [String.eqb].
    - Python objects that are mutated through references ([Node]) live in an
      arena, a [list Node] addressed by index; [Node(...)] allocates at the
      end of the arena.
    - An [OrderedDict] / [dict] is an association list without repeated
      keys, in insertion order.
    - Exceptions are values of [exn]; a call returns [Ok], [Raise] or, for
      the recursive tree walks that are given fuel, [Stuck]. *)

From Stdlib Require Import ZArith String Ascii List Lia DecimalString.
From stdpp Require Import base list strings gmap sorting.

Open Scope Z_scope.

(** ** Exceptions and results *)

Inductive exn : Type :=
| KeyError (key : string)
| IndexError
| IOError (msg : string).

Inductive result (A : Type) : Type :=
| Ok (a : A)
| Raise (e : exn)
| Stuck.
Arguments Ok {A} a.
Arguments Raise {A} e.
Arguments Stuck {A}.

#[global] Instance result_bind : MBind result := fun A B k r =>
  match r with
  | Ok a => k a
  | Raise e => Raise e
  | Stuck => Stuck
  end.

(** ** Python list primitives *)

(** [l[i]], raising [IndexError] out of range (indices are never negative
    in the code modelled here). *)
Definition py_index {A} (l : list A) (i : nat) : result A :=
  match l !! i with
  | Some x => Ok x
  | None => Raise IndexError
  end.

(** [l.insert(i, x)]: past the end it appends. *)
Definition py_insert {A} (i : nat) (x : A) (l : list A) : list A :=
  take i l ++ x :: drop i l.

(** [l.pop(i)], keeping only the shortened list. *)
Definition py_pop {A} (i : nat) (l : list A) : result (list A) :=
  match l !! i with
  | Some _ => Ok (take i l ++ drop (S i) l)
  | None => Raise IndexError
  end.

(** The loop [index = 0; while index < len(keys) and p(keys[index]): index += 1]. *)
Fixpoint scan (p : string -> bool) (ks : list string) : nat :=
  match ks with
  | [] => 0%nat
  | k :: ks' => if p k then S (scan p ks') else 0%nat
  end.

(** [key in keys] and [keys.index(key)]. *)
Definition py_in (key : string) (ks : list string) : bool :=
  existsb (String.eqb key) ks.

Definition py_list_index (key : string) (ks : list string) : nat :=
  scan (fun k => negb (String.eqb key k)) ks.

Definition str_gt (a b : string) : bool := String.ltb b a.
Definition str_ge (a b : string) : bool := String.leb b a.

(** [index < len(keys) and key == keys[index]] *)
Definition key_at (key : string) (ks : list string) (index : nat) : bool :=
  match ks !! index with
  | Some k => String.eqb key k
  | None => false
  end.

(** [start_key <= key <= end_key] *)
Definition in_range (start_key end_key key : string) : bool :=
  String.leb start_key key && String.leb key end_key.

(** ** The B+Tree engine ([bplus_tree.py]) *)

Module BPlus.

(** References into the arena. *)
Abbreviation ref := nat (only parsing).

Record Node : Type := mkNode {
  keys : list string;
  values : list string;
  children : list ref;
  is_leaf : bool;
  next : option ref
}.

(** [Node(is_leaf)] *)
Definition new_node (leaf : bool) : Node := mkNode [] [] [] leaf None.

Abbreviation heap := (list Node) (only parsing).

Record BPlusTree : Type := mkTree {
  nodes : heap;
  root : ref;
  degree : Z
}.

Definition min_keys (t : BPlusTree) : Z := degree t - 1.
Definition max_keys (t : BPlusTree) : Z := 2 * degree t - 1.

(** [BPlusTree(degree)] *)
Definition init (d : Z) : BPlusTree := mkTree [new_node true] 0%nat d.

Definition load (h : heap) (r : ref) : result Node :=
  match h !! r with
  | Some n => Ok n
  | None => Stuck
  end.

Definition store (h : heap) (r : ref) (n : Node) : heap := <[r := n]> h.

Definition alloc (h : heap) (n : Node) : heap * ref := (h ++ [n], length h).

Definition len_is (ks : list string) (n : Z) : bool := Z.of_nat (length ks) =? n.

Definition _split_child (h : heap) (parent : ref) (index : nat) : result heap :=
  p ← load h parent;
  child ← py_index (children p) index;
  c ← load h child;
  let '(h, new) := alloc h (new_node (is_leaf c)) in
  let split_point := (length (keys c) / 2)%nat in
  middle_key ← py_index (keys c) split_point;
  let h :=
    if is_leaf c then
      let h := store h new (mkNode (drop split_point (keys c))
                                   (drop split_point (values c))
                                   [] true (next c)) in
      store h child (mkNode (take split_point (keys c))
                            (take split_point (values c))
                            (children c) true (Some new))
    else
      let h := store h new (mkNode (drop (S split_point) (keys c)) []
                                   (drop (S split_point) (children c))
                                   false None) in
      store h child (mkNode (take split_point (keys c)) (values c)
                            (take (S split_point) (children c))
                            false (next c)) in
  p ← load h parent;
  Ok (store h parent (mkNode (py_insert index middle_key (keys p)) (values p)
                             (py_insert (S index) new (children p))
                             (is_leaf p) (next p))).

Fixpoint _insert_non_full (fuel : nat) (maxk : Z) (h : heap) (node : ref)
    (key value : string) : result heap :=
  match fuel with
  | O => Stuck
  | S fuel =>
    n ← load h node;
    let index := scan (str_gt key) (keys n) in
    if is_leaf n then
      Ok (store h node (mkNode (py_insert index key (keys n))
                               (py_insert index value (values n))
                               (children n) (is_leaf n) (next n)))
    else
      child ← py_index (children n) index;
      c ← load h child;
      if len_is (keys c) maxk then
        h ← _split_child h node index;
        n ← load h node;
        k ← py_index (keys n) index;
        let index := if str_gt key k then S index else index in
        child ← py_index (children n) index;
        _insert_non_full fuel maxk h child key value
      else
        _insert_non_full fuel maxk h child key value
  end.

(** The walks below recurse on the arena, so they take fuel; the public
    operations give them one more than the number of nodes, which covers
    every path of an acyclic arena. *)
Definition fuel_of (h : heap) : nat := S (length h).

Definition insert (t : BPlusTree) (key value : string) : result BPlusTree :=
  r ← load (nodes t) (root t);
  if len_is (keys r) (max_keys t) then
    let '(h, new_root) := alloc (nodes t) (new_node false) in
    let h := store h new_root (mkNode [] [] [root t] false None) in
    h ← _split_child h new_root 0;
    h ← _insert_non_full (fuel_of h) (max_keys t) h new_root key value;
    Ok (mkTree h new_root (degree t))
  else
    h ← _insert_non_full (fuel_of (nodes t)) (max_keys t) (nodes t) (root t) key value;
    Ok (mkTree h (root t) (degree t)).

Fixpoint _search (fuel : nat) (h : heap) (node : ref) (key : string)
    : result (option string) :=
  match fuel with
  | O => Stuck
  | S fuel =>
    n ← load h node;
    if is_leaf n then
      let index := scan (str_gt key) (keys n) in
      if key_at key (keys n) index then
        v ← py_index (values n) index; Ok (Some v)
      else Ok None
    else
      let index := scan (str_ge key) (keys n) in
      child ← py_index (children n) index;
      _search fuel h child key
  end.

Definition get (t : BPlusTree) (key : string) : result (option string) :=
  _search (fuel_of (nodes t)) (nodes t) (root t) key.

Definition _delete_from_leaf (h : heap) (node : ref) (key : string) : result heap :=
  n ← load h node;
  if py_in key (keys n) then
    let index := py_list_index key (keys n) in
    ks ← py_pop index (keys n);
    vs ← py_pop index (values n);
    Ok (store h node (mkNode ks vs (children n) (is_leaf n) (next n)))
  else
    Raise (KeyError key).

(** Both helpers are [pass] in the source. *)
Definition _delete_internal_key (h : heap) (node : ref) (index : nat) : result heap :=
  Ok h.

Definition _fix_child (h : heap) (node : ref) (index : nat) : result heap :=
  Ok h.

Definition _delete_from_internal (_delete : heap -> ref -> string -> result heap)
    (mink : Z) (h : heap) (node : ref) (key : string) : result heap :=
  n ← load h node;
  let index := scan (str_gt key) (keys n) in
  if key_at key (keys n) index then _delete_internal_key h node index
  else
    child ← py_index (children n) index;
    c ← load h child;
    h ← (if len_is (keys c) mink then
           h ← _fix_child h node index;
           (* [if index > len(node.keys): index -= 1]: [index] is not read again *)
           Ok h
         else Ok h);
    _delete h child key.

Fixpoint _delete (fuel : nat) (mink : Z) (h : heap) (node : ref) (key : string)
    : result heap :=
  match fuel with
  | O => Stuck
  | S fuel =>
    n ← load h node;
    if is_leaf n then _delete_from_leaf h node key
    else _delete_from_internal (_delete fuel mink) mink h node key
  end.

Definition delete (t : BPlusTree) (key : string) : result BPlusTree :=
  h ← _delete (fuel_of (nodes t)) (min_keys t) (nodes t) (root t) key;
  r ← load h (root t);
  if negb (is_leaf r) && (length (children r) =? 1)%nat then
    child ← py_index (children r) 0;
    Ok (mkTree h child (degree t))
  else
    Ok (mkTree h (root t) (degree t)).

(** All the keys held by leaves of the arena, and all the separators held
    by its internal nodes. *)
Definition leaf_keys (h : heap) : list string :=
  concat (map (fun n => if is_leaf n then keys n else []) h).

Definition internal_keys (h : heap) : list string :=
  concat (map (fun n => if is_leaf n then [] else keys n) h).

(** All the values held by leaves of the arena. *)
Definition leaf_values (h : heap) : list string :=
  concat (map (fun n => if is_leaf n then values n else []) h).

Fixpoint _find_leaf (fuel : nat) (h : heap) (node : ref) (key : string) : result ref :=
  match fuel with
  | O => Stuck
  | S fuel =>
    n ← load h node;
    if is_leaf n then Ok node
    else
      let index := scan (str_ge key) (keys n) in
      child ← py_index (children n) index;
      _find_leaf fuel h child key
  end.

(** The [for i, key in enumerate(leaf.keys)] loop of [range_query] from
    position [i] on; the flag tells whether the loop hit [return results]. *)
Fixpoint range_leaf (start_key end_key : string) (vs : list string) (i : nat)
    (ks : list string) (results : list (string * string))
    : result (list (string * string) * bool) :=
  match ks with
  | [] => Ok (results, false)
  | key :: ks' =>
      if in_range start_key end_key key then
        v ← py_index vs i;
        range_leaf start_key end_key vs (S i) ks' (results ++ [(key, v)])
      else if str_gt key end_key then Ok (results, true)
      else range_leaf start_key end_key vs (S i) ks' results
  end.

(** The [while leaf] loop of [range_query] along the [next] links. *)
Fixpoint range_chain (fuel : nat) (h : heap) (leaf : option ref)
    (start_key end_key : string) (results : list (string * string))
    : result (list (string * string)) :=
  match fuel with
  | O => Stuck
  | S fuel =>
    match leaf with
    | None => Ok results
    | Some r =>
        n ← load h r;
        '(results, returned) ← range_leaf start_key end_key (values n) 0 (keys n) results;
        if returned : bool then Ok results
        else range_chain fuel h (next n) start_key end_key results
    end
  end.

Definition range_query (t : BPlusTree) (start_key end_key : string)
    : result (list (string * string)) :=
  leaf ← _find_leaf (fuel_of (nodes t)) (nodes t) (root t) start_key;
  range_chain (fuel_of (nodes t)) (nodes t) (Some leaf) start_key end_key [].



(** What the leaves of an arena hold in the field [fld]. *)
Definition leaf_field (fld : Node -> list string) (n : Node) : list string :=
  if is_leaf n then fld n else [].

Definition leaf_bag (fld : Node -> list string) (h : heap) : list string :=
  concat (map (leaf_field fld) h).

End BPlus.

(** ** Python string primitives used by the write-ahead log *)

Definition newline : ascii := "010"%char.
Definition carriage_return : ascii := "013"%char.
Definition colon : ascii := ":"%char.

(** [str.isspace] on the code points below 256. *)
Definition py_isspace (c : ascii) : bool :=
  let n := N_of_ascii c in
  ((9 <=? n) && (n <=? 13) || (28 <=? n) && (n <=? 32)
   || (n =? 133) || (n =? 160))%N.

Fixpoint lstrip (s : string) : string :=
  match s with
  | EmptyString => EmptyString
  | String c s' => if py_isspace c then lstrip s' else s
  end.

Fixpoint rstrip (s : string) : string :=
  match s with
  | EmptyString => EmptyString
  | String c s' =>
      match rstrip s' with
      | EmptyString => if py_isspace c then EmptyString else String c EmptyString
      | r => String c r
      end
  end.

(** [s.strip()] *)
Definition strip (s : string) : string := rstrip (lstrip s).

(** [key, value = s.split(':', 1)]: [None] stands for the [ValueError] of
    unpacking a one-element list. *)
Fixpoint split_colon (s : string) : option (string * string) :=
  match s with
  | EmptyString => None
  | String c s' =>
      if Ascii.eqb c colon then Some (EmptyString, s')
      else match split_colon s' with
           | Some (k, v) => Some (String c k, v)
           | None => None
           end
  end.

(** Text-mode reading translates ["\r\n"] and ["\r"] to ["\n"]. *)
Fixpoint universal_newlines (s : string) : string :=
  match s with
  | EmptyString => EmptyString
  | String c s' =>
      if Ascii.eqb c carriage_return then
        String newline
          match s' with
          | String c' s'' =>
              if Ascii.eqb c' newline then universal_newlines s''
              else universal_newlines s'
          | EmptyString => EmptyString
          end
      else String c (universal_newlines s')
  end.

(** [for line in f]: the lines of the text, each with its terminator. *)
Fixpoint text_lines (s : string) : list string :=
  match s with
  | EmptyString => []
  | String c s' =>
      if Ascii.eqb c newline then String c EmptyString :: text_lines s'
      else match text_lines s' with
           | [] => [String c EmptyString]
           | l :: ls => String c l :: ls
           end
  end.

Definition file_lines (content : string) : list string :=
  text_lines (universal_newlines content).

Definition ends_with (suffix s : string) : bool :=
  String.prefix (String.rev suffix) (String.rev s).

Fixpoint contains_char (c : ascii) (s : string) : bool :=
  match s with
  | EmptyString => false
  | String c' s' => Ascii.eqb c' c || contains_char c s'
  end.

(** [str(n)] for an [int]. *)
Definition str_of_int (n : Z) : string := NilZero.string_of_int (Z.to_int n).

(** [os.path.join(dir, name)] for a relative [name]. *)
Definition path_join (dir name : string) : string :=
  if String.eqb dir "" then name
  else if ends_with "/" dir then dir +:+ name
  else dir +:+ "/" +:+ name.

(** [sorted(l, reverse=True)] on strings. *)
Fixpoint insert_desc (x : string) (l : list string) : list string :=
  match l with
  | [] => [x]
  | y :: l' => if String.ltb y x then x :: l else y :: insert_desc x l'
  end.

Definition sorted_reverse (l : list string) : list string :=
  fold_right insert_desc [] l.

(** Strictly ascending keys. *)
Fixpoint ascending (l : list string) : bool :=
  match l with
  | k1 :: (k2 :: _) as l' => String.ltb k1 k2 && ascending l'
  | _ => true
  end.

(** ** Insertion-ordered dictionaries *)

Abbreviation dict V := (list (string * V)) (only parsing).

Section Dict.
Context {V : Type}.

(** [d[key]] / [d.get(key)] *)
Fixpoint dict_get (key : string) (d : dict V) : option V :=
  match d with
  | [] => None
  | (k, v) :: d' => if String.eqb k key then Some v else dict_get key d'
  end.

(** [key in d] *)
Definition dict_in (key : string) (d : dict V) : bool :=
  match dict_get key d with Some _ => true | None => false end.

(** [d[key] = value]: an existing key keeps its position. *)
Fixpoint dict_set (key : string) (value : V) (d : dict V) : dict V :=
  match d with
  | [] => [(key, value)]
  | (k, v) :: d' =>
      if String.eqb k key then (k, value) :: d'
      else (k, v) :: dict_set key value d'
  end.

(** [m.update(items)] *)
Definition dict_update (m : dict V) (items : list (string * V)) : dict V :=
  fold_left (fun m kv => dict_set kv.1 kv.2 m) items m.

Definition dict_keys (d : dict V) : list string := fst <$> d.
End Dict.

(** ** The LSM engine ([lsm_tree.py]) *)

Module LSM.

(** An SSTable file holds the members of one JSON object, or is unreadable
    as JSON. *)
Inductive sst_file : Type :=
| Json (items : list (string * string))
| Corrupt.

(** The storage the engine works on: the file [wal.log] and the files under
    their paths. *)
Record Disk : Type := mkDisk {
  wal : option string;
  files : gmap string sst_file
}.

(** What the operating system answers during one call: whether the append
    to the log and the write of an SSTable succeed, the text of the error
    otherwise, and [int(time.time() * 1000)]. A request that fails leaves
    the storage as it was; reading the log and removing a file that exists
    do not fail. *)
Record Env : Type := mkEnv {
  wal_append_ok : bool;
  sstable_write_ok : bool;
  os_error : string;
  now : Z
}.

Record LSMTree : Type := mkLSM {
  memtable : dict string;
  sstables : list string;
  max_memtable_size : Z;
  sstable_dir : string
}.

(** [json.load] of an SSTable; [None] stands for [IOError] and
    [JSONDecodeError]. A repeated member overwrites the earlier one. *)
Definition read_sstable (d : Disk) (path : string) : option (dict string) :=
  match files d !! path with
  | Some (Json items) => Some (dict_update [] items)
  | Some Corrupt => None
  | None => None
  end.

Definition write_sstable (d : Disk) (path : string) (data : dict string) : Disk :=
  mkDisk (wal d) (<[path := Json data]> (files d)).

(** [os.remove(path)] with [OSError] ignored. *)
Definition remove_file (d : Disk) (path : string) : Disk :=
  mkDisk (wal d) (delete path (files d)).

Definition remove_wal (d : Disk) : Disk := mkDisk None (files d).

Definition wal_line (key value : string) : string :=
  key +:+ ":" +:+ value +:+ String newline EmptyString.

(** [open(wal_file, 'a')] followed by one [write]. *)
Definition wal_append (d : Disk) (line : string) : Disk :=
  mkDisk (Some (default EmptyString (wal d) +:+ line)) (files d).

Definition replay_line (m : dict string) (line : string) : dict string :=
  match split_colon (strip line) with
  | Some (key, value) => dict_set key value m
  | None => m
  end.

Definition _recover_from_wal (d : Disk) (m : dict string) : dict string :=
  match wal d with
  | Some content => fold_left replay_line (file_lines content) m
  | None => m
  end.

(** [glob.glob(os.path.join(dir, 'sstable_*.json'))] *)
Definition glob_match (dir path : string) : bool :=
  let stem := path_join dir "sstable_" in
  String.prefix stem path
  && ends_with ".json" path
  && (String.length stem + 5 <=? String.length path)%nat
  && negb (contains_char "/" (substring (String.length stem)
                                (String.length path - String.length stem) path)).

Definition glob_sstables (dir : string) (d : Disk) : list string :=
  filter (fun p => Is_true (glob_match dir p)) (map fst (map_to_list (files d))).

Definition _load_existing_sstables (dir : string) (d : Disk) : list string :=
  sorted_reverse (glob_sstables dir d).

(** [LSMTree(max_memtable_size, sstable_dir)] over the storage [d]
    (directories are not part of the storage model, so
    [_initialize_storage] has nothing to do). *)
Definition init (max_size : Z) (dir : string) (d : Disk) : LSMTree :=
  mkLSM (_recover_from_wal d []) (_load_existing_sstables dir d) max_size dir.

Definition flush_name (dir : string) (ts : Z) : string :=
  path_join dir ("sstable_" +:+ str_of_int ts +:+ ".json").

Definition compact_name (dir : string) (ts : Z) : string :=
  path_join dir ("sstable_compact_" +:+ str_of_int ts +:+ ".json").

(** The outcome of a call: the exception raised, if any, and the engine and
    storage it leaves behind. *)
Abbreviation outcome := (option exn * LSMTree * Disk)%type (only parsing).

Definition _flush_memtable (e : Env) (t : LSMTree) (d : Disk) : outcome :=
  match memtable t with
  | [] => (None, t, d)
  | _ =>
    let sstable_name := flush_name (sstable_dir t) (now e) in
    if sstable_write_ok e then
      let d := write_sstable d sstable_name (memtable t) in
      let t := mkLSM [] (sstable_name :: sstables t)
                     (max_memtable_size t) (sstable_dir t) in
      (None, t, remove_wal d)
    else
      (Some (IOError ("Failed to flush memtable to SSTable: " +:+ os_error e)), t, d)
  end.

Definition insert (e : Env) (key value : string) (t : LSMTree) (d : Disk) : outcome :=
  if wal_append_ok e then
    let d := wal_append d (wal_line key value) in
    let t := mkLSM (dict_set key value (memtable t)) (sstables t)
                   (max_memtable_size t) (sstable_dir t) in
    if Z.of_nat (length (memtable t)) >=? max_memtable_size t
    then _flush_memtable e t d
    else (None, t, d)
  else
    (Some (IOError ("Failed to write to WAL: " +:+ os_error e)), t, d).

Fixpoint get_sstables (key : string) (d : Disk) (l : list string) : option string :=
  match l with
  | [] => None
  | sstable :: l' =>
      match read_sstable d sstable with
      | Some data =>
          match dict_get key data with
          | Some v => Some v
          | None => get_sstables key d l'
          end
      | None => get_sstables key d l'
      end
  end.

Definition get (key : string) (t : LSMTree) (d : Disk) : option string :=
  match dict_get key (memtable t) with
  | Some v => Some v
  | None => get_sstables key d (sstables t)
  end.

Definition range_items (start_key end_key : string) (data : dict string)
    : list (string * string) :=
  filter (fun kv => Is_true (in_range start_key end_key kv.1)) data.

Definition range_query (start_key end_key : string) (t : LSMTree) (d : Disk)
    : list (string * string) :=
  range_items start_key end_key (memtable t)
  ++ concat (map (fun sstable =>
                    match read_sstable d sstable with
                    | Some data => range_items start_key end_key data
                    | None => []
                    end) (sstables t)).

Definition merge_sstables (d : Disk) (l : list string) : dict string :=
  fold_left (fun merged sstable =>
               match read_sstable d sstable with
               | Some data => dict_update merged data
               | None => merged
               end) (reverse l) [].

Definition compact (e : Env) (t : LSMTree) (d : Disk) : outcome :=
  if (length (sstables t) <=? 1)%nat then (None, t, d)
  else
    let merged := merge_sstables d (sstables t) in
    let new_sstable := compact_name (sstable_dir t) (now e) in
    if sstable_write_ok e then
      let d := write_sstable d new_sstable merged in
      let d := fold_left remove_file (sstables t) d in
      (None, mkLSM (memtable t) [new_sstable]
                   (max_memtable_size t) (sstable_dir t), d)
    else
      (Some (IOError (os_error e)), t, d).

(** A caller issuing [insert] calls one after the other, going on after a
    call that raised (as the request layer does). *)
Abbreviation call := (Env * string * string)%type (only parsing).

Abbreviation state := (LSMTree * Disk)%type (only parsing).

Definition state_of (o : outcome) : state := (o.1.2, o.2).

Definition apply_call (s : state) (c : call) : outcome :=
  insert c.1.1 c.1.2 c.2 s.1 s.2.


Definition insert_all (calls : list call) (s : state) : state :=
  fold_left (fun s c => state_of (apply_call s c)) calls s.




(** Keys and values that a [key:value] line carries unchanged: no colon in
    the key, no line break in either, no white space at the start of the
    key or at the end of the value. *)
Definition wal_safe (key value : string) : bool :=
  negb (contains_char colon key)
  && negb (contains_char newline key)
  && negb (contains_char carriage_return key)
  && negb (contains_char newline value)
  && negb (contains_char carriage_return value)
  && String.eqb (lstrip key) key
  && String.eqb (rstrip value) value.


(** Directory names in which [glob] sees no wildcard, so that the pattern
    [dir/sstable_*.json] means what [glob_match] says. *)
Definition glob_plain (dir : string) : bool :=
  negb (contains_char "*" dir) && negb (contains_char "?" dir)
  && negb (contains_char "[" dir).

(** [clear()]: forget everything and remove the log and every snapshot
    file the pattern finds. *)
Definition clear (t : LSMTree) (d : Disk) : LSMTree * Disk :=
  let d := remove_wal d in
  let d := fold_left remove_file (glob_sstables (sstable_dir t) d) d in
  (mkLSM [] [] (max_memtable_size t) (sstable_dir t), d).

(** A log as it may be found at start-up: lines written by [insert] with
    other lines in between. *)
Inductive wal_item : Type :=
| Entry (key value : string)
| Junk (text : string).

Definition item_line (it : wal_item) : string :=
  match it with
  | Entry key value => wal_line key value
  | Junk text => text +:+ String newline EmptyString
  end.

Definition log_text (items : list wal_item) : string :=
  fold_right (fun it text => item_line it +:+ text) EmptyString items.

(** The entries are safe for the line format; the other lines hold no
    colon and no line break. *)
Definition item_ok (it : wal_item) : bool :=
  match it with
  | Entry key value => wal_safe key value
  | Junk text =>
      negb (contains_char colon text)
      && negb (contains_char newline text)
      && negb (contains_char carriage_return text)
  end.

Definition entries_of (items : list wal_item) : list (string * string) :=
  omap (fun it => match it with
                  | Entry key value => Some (key, value)
                  | Junk _ => None
                  end) items.


End LSM.

(** ** The dictionary-backed B+Tree of the request layer ([app.py]) *)

Fixpoint dict_remove {V} (key : string) (d : dict V) : dict V :=
  match d with
  | [] => []
  | (k, v) :: d' => if String.eqb k key then d' else (k, v) :: dict_remove key d'
  end.

Module AppBPlus.

Record BPlusTree : Type := mkTree {
  degree : Z;
  data : dict string
}.

Definition init (d : Z) : BPlusTree := mkTree d [].

Definition insert (key value : string) (t : BPlusTree) : BPlusTree :=
  mkTree (degree t) (dict_set key value (data t)).

Definition get (key : string) (t : BPlusTree) : option string :=
  dict_get key (data t).

(** [{k: v for k, v in self.data.items() if start_key <= k <= end_key}] *)
Definition range_query (start_key end_key : string) (t : BPlusTree) : dict string :=
  dict_update [] (filter (fun kv => Is_true (in_range start_key end_key kv.1)) (data t)).

(** [if key in self.data: del self.data[key]] *)
Definition delete (key : string) (t : BPlusTree) : BPlusTree :=
  if dict_in key (data t) then mkTree (degree t) (dict_remove key (data t)) else t.

End AppBPlus.

(** ** The in-memory LSM engine of the request layer ([app.py]) *)

Module AppLSM.

(** A value is a string or [None], the mark [delete] leaves. SSTables are
    dictionaries kept in memory, oldest first. *)
Record LSMTree : Type := mkLSM {
  memtable : dict (option string);
  sstables : list (dict (option string));
  max_memtable_size : Z
}.

Definition init (max_size : Z) : LSMTree := mkLSM [] [] max_size.

Definition _flush_to_disk (t : LSMTree) : LSMTree :=
  mkLSM [] (sstables t ++ [memtable t]) (max_memtable_size t).

Definition put (key : string) (value : option string) (t : LSMTree) : LSMTree :=
  let t := mkLSM (dict_set key value (memtable t)) (sstables t) (max_memtable_size t) in
  if Z.of_nat (length (memtable t)) >=? max_memtable_size t
  then _flush_to_disk t
  else t.

Definition insert (key value : string) (t : LSMTree) : LSMTree :=
  put key (Some value) t.

Definition delete (key : string) (t : LSMTree) : LSMTree :=
  put key None t.

(** The binding of [key] in the first dictionary of [l] that has one. *)
Fixpoint first_binding (key : string) (l : list (dict (option string)))
    : option (option string) :=
  match l with
  | [] => None
  | sstable :: l' =>
      match dict_get key sstable with
      | Some v => Some v
      | None => first_binding key l'
      end
  end.

(** The binding [get] and [range_query] look for: the memtable's, else the
    one of the newest SSTable holding the key. *)
Definition newest_binding (key : string) (t : LSMTree) : option (option string) :=
  first_binding key (memtable t :: reverse (sstables t)).

Definition get (key : string) (t : LSMTree) : option string :=
  match newest_binding key t with
  | Some v => v
  | None => None
  end.

(** [if start_key <= key <= end_key and key not in result: result[key] = value] *)
Definition add_missing (start_key end_key : string)
    (result : dict (option string)) (kv : string * option string)
    : dict (option string) :=
  if in_range start_key end_key kv.1 && negb (dict_in kv.1 result)
  then dict_set kv.1 kv.2 result
  else result.

Definition range_query (start_key end_key : string) (t : LSMTree)
    : dict (option string) :=
  let result :=
    fold_left (fun result kv =>
                 if in_range start_key end_key kv.1
                 then dict_set kv.1 kv.2 result
                 else result) (memtable t) [] in
  fold_left (fun result sstable =>
               fold_left (add_missing start_key end_key) sstable result)
            (reverse (sstables t)) result.

End AppLSM.

(** ** Concrete trees, engines and storages used below *)

Module Scenarios.

(** A fresh root (node 1) over a full leaf of degree 3 (node 0). *)
Definition split_heap : list BPlus.Node :=
  [ BPlus.mkNode ["1"; "2"; "3"; "4"; "5"] ["a"; "b"; "c"; "d"; "e"] [] true None;
    BPlus.mkNode [] [] [0%nat] false None ].

Definition insert_seq (t : BPlus.BPlusTree) (kvs : list (string * string))
    : result BPlus.BPlusTree :=
  fold_left (fun r kv => t ← r; BPlus.insert t kv.1 kv.2) kvs (Ok t).

(** [BPlusTree(3)] after [insert(str(i), f"value_{i}")] for [i = 1..6]. *)
Definition tree6 : result BPlus.BPlusTree :=
  insert_seq (BPlus.init 3)
    [("1", "value_1"); ("2", "value_2"); ("3", "value_3");
     ("4", "value_4"); ("5", "value_5"); ("6", "value_6")].


Definition empty_disk : LSM.Disk := LSM.mkDisk None ∅.

(** An environment in which every request succeeds, at time [ts]. *)
Definition env_ok (ts : Z) : LSM.Env := LSM.mkEnv true true "" ts.

(** An environment in which the append to the log fails. *)
Definition env_wal_down : LSM.Env := LSM.mkEnv false true "No space left on device" 0.

Definition fresh (max_size : Z) : LSM.state :=
  (LSM.init max_size "sstables" empty_disk, empty_disk).



(** With [max_memtable_size = 2]: ["b"] and ["a"] are flushed together,
    then ["b"] is overwritten in the memtable. *)
Definition overwritten_after_flush : LSM.LSMTree * LSM.Disk :=
  LSM.insert_all [ (env_ok 1700000000000, "b", "old"); (env_ok 1700000000001, "a", "1");
                   (env_ok 1700000000002, "b", "new") ] (fresh 2).

(** With [max_memtable_size = 1]: two inserts (two flushes), a compaction,
    and a third insert that overwrites ["a"]. *)
Definition after_compact_and_flush : LSM.state :=
  let s := LSM.insert_all [(env_ok 1700000000000, "a", "old");
                           (env_ok 1700000000001, "b", "x")] (fresh 1) in
  let s := LSM.state_of (LSM.compact (env_ok 1700000000002) s.1 s.2) in
  LSM.insert_all [(env_ok 1700000000003, "a", "new")] s.

(** An engine with two snapshots, the newer one a compaction result of the
    millisecond in which [compact] is called again. *)
Definition collision_state : LSM.state :=
  let s := LSM.insert_all [(env_ok 998, "a", "1"); (env_ok 999, "b", "2")] (fresh 1) in
  let s := LSM.state_of (LSM.compact (env_ok 1000) s.1 s.2) in
  LSM.insert_all [(env_ok 1000, "c", "3")] s.

(** The same three calls on the in-memory engine of [app.py]. *)
Definition app_overwritten_after_flush : AppLSM.LSMTree :=
  AppLSM.insert "b" "new"
    (AppLSM.insert "a" "1" (AppLSM.insert "b" "old" (AppLSM.init 2))).

End Scenarios.

(** * Properties of the B+Tree engine *)

Module BPlusProofs.
Import BPlus Scenarios.

Lemma py_insert_length {A} (i : nat) (x : A) (l : list A) :
  length (py_insert i x l) = S (length l).
Proof.
  unfold py_insert. rewrite length_app. simpl.
  rewrite length_take, length_drop. lia.
Qed.

Lemma py_insert_lookup {A} (i : nat) (x : A) (l : list A) :
  (i <= length l)%nat -> py_insert i x l !! i = Some x.
Proof.
  intros Hi. unfold py_insert.
  rewrite lookup_app_r; rewrite length_take; [|lia].
  replace (i - i `min` length l)%nat with 0%nat by lia. done.
Qed.

Lemma py_insert_lookup_lt {A} (i j : nat) (x : A) (l : list A) :
  (j < i)%nat -> (i <= length l)%nat -> py_insert i x l !! j = l !! j.
Proof.
  intros Hj Hi. unfold py_insert.
  rewrite lookup_app_l by (rewrite length_take; lia).
  by rewrite lookup_take_lt.
Qed.

Lemma half_of_full (n : nat) (d : Z) :
  Z.of_nat n = 2 * d - 1 -> Z.of_nat (n / 2) = d - 1.
Proof.
  intros Hn. rewrite Nat2Z.inj_div. simpl Z.of_nat. rewrite Hn.
  replace (2 * d - 1) with (1 + (d - 1) * 2) by lia.
  rewrite Z.div_add by lia. reflexivity.
Qed.

Lemma bind_Ok {A B} (a : A) (k : A -> result B) : (Ok a ≫= k) = k a.
Proof. reflexivity. Qed.

Lemma py_index_Some {A} (l : list A) (i : nat) (x : A) :
  l !! i = Some x -> py_index l i = Ok x.
Proof. intros H. unfold py_index. by rewrite H. Qed.

Lemma load_Some (h : heap) (r : ref) (n : Node) :
  h !! r = Some n -> load h r = Ok n.
Proof. intros H. unfold load. by rewrite H. Qed.

(** C7. [_split_child] on a parent whose child [index] is full
    ([2*degree - 1] keys): the call returns; the parent gains exactly one
    key, the child's key at [len(keys) // 2], at position [index], and
    exactly one child, the new node, at position [index + 1], right after
    the split child; the split child and the new node both hold between
    [degree - 1] and [2*degree - 1] keys; for a leaf the new node takes
    the keys and values from the split point on, the old one keeps those
    before it, the new node inherits the old node's [next] and the old
    node's [next] becomes the new node; for an internal node the median
    moves up and the new node takes the keys and children after it; no
    other node changes. *)
Theorem split_child_correct (h : heap) (parent child : ref) (index : nat)
    (p c : Node) (d : Z) :
  h !! parent = Some p ->
  children p !! index = Some child ->
  h !! child = Some c ->
  parent <> child ->
  Z.of_nat (length (keys c)) = 2 * d - 1 ->
  let split_point := (length (keys c) / 2)%nat in
  let new := length h in
  exists h' middle p' c' n',
    _split_child h parent index = Ok h'
    /\ keys c !! split_point = Some middle
    /\ h !! new = None
    /\ h' !! parent = Some p' /\ h' !! child = Some c' /\ h' !! new = Some n'
    /\ (forall r, r <> parent -> r <> child -> r <> new -> h' !! r = h !! r)
    (* the parent *)
    /\ keys p' = take index (keys p) ++ middle :: drop index (keys p)
    /\ length (keys p') = S (length (keys p))
    /\ children p' = take (S index) (children p) ++ new :: drop (S index) (children p)
    /\ length (children p') = S (length (children p))
    /\ children p' !! index = Some child
    /\ children p' !! S index = Some new
    (* the two halves *)
    /\ is_leaf c' = is_leaf c /\ is_leaf n' = is_leaf c
    /\ d - 1 <= Z.of_nat (length (keys c')) <= 2 * d - 1
    /\ d - 1 <= Z.of_nat (length (keys n')) <= 2 * d - 1
    /\ keys c' = take split_point (keys c)
    /\ (is_leaf c = true ->
          keys n' = drop split_point (keys c)
          /\ values n' = drop split_point (values c)
          /\ values c' = take split_point (values c)
          /\ keys c' ++ keys n' = keys c
          /\ next n' = next c
          /\ next c' = Some new)
    /\ (is_leaf c = false ->
          keys n' = drop (S split_point) (keys c)
          /\ children n' = drop (S split_point) (children c)
          /\ children c' = take (S split_point) (children c)
          /\ keys c' ++ middle :: keys n' = keys c
          /\ next c' = next c).
Proof.
  intros Hp Hidx Hc Hne Hfull split_point new.
  assert (Hsp : Z.of_nat split_point = d - 1) by (by apply half_of_full).
  assert (Hlt : (split_point < length (keys c))%nat) by lia.
  destruct (lookup_lt_is_Some_2 (keys c) split_point Hlt) as [middle Hmid].
  assert (Hpl : (parent < length h)%nat) by (by eapply lookup_lt_Some).
  assert (Hcl : (child < length h)%nat) by (by eapply lookup_lt_Some).
  assert (Hil : (index < length (children p))%nat) by (by eapply lookup_lt_Some).
  set (nleaf := mkNode (drop split_point (keys c)) (drop split_point (values c))
                       [] true (next c)).
  set (cleaf := mkNode (take split_point (keys c)) (take split_point (values c))
                       (children c) true (Some new)).
  set (nint := mkNode (drop (S split_point) (keys c)) []
                      (drop (S split_point) (children c)) false None).
  set (cint := mkNode (take split_point (keys c)) (values c)
                      (take (S split_point) (children c)) false (next c)).
  set (c' := if is_leaf c then cleaf else cint).
  set (n' := if is_leaf c then nleaf else nint).
  set (p' := mkNode (py_insert index middle (keys p)) (values p)
                    (py_insert (S index) new (children p)) (is_leaf p) (next p)).
  set (h2 := store (store (h ++ [new_node (is_leaf c)]) new n') child c').
  assert (Hh2 : forall r, r <> child -> r <> new -> h2 !! r = h !! r).
  { intros r Hr1 Hr2. unfold h2, store.
    rewrite list_lookup_insert_ne by done.
    rewrite list_lookup_insert_ne by done.
    destruct (decide (r < length h)%nat).
    - by rewrite lookup_app_l.
    - rewrite (lookup_ge_None_2 h) by lia.
      apply lookup_ge_None_2. rewrite length_app. simpl. unfold new in Hr2. lia. }
  assert (Hlen2 : length h2 = S (length h)).
  { unfold h2, store. rewrite !length_insert, length_app. simpl. lia. }
  assert (Hrun : _split_child h parent index = Ok (store h2 parent p')).
  { unfold _split_child.
    rewrite (load_Some _ _ _ Hp), bind_Ok.
    rewrite (py_index_Some _ _ _ Hidx), bind_Ok.
    rewrite (load_Some _ _ _ Hc), bind_Ok.
    unfold alloc. cbv beta iota zeta. fold split_point new.
    rewrite (py_index_Some _ _ _ Hmid), bind_Ok.
    assert (Hload : load h2 parent = Ok p).
    { apply load_Some. rewrite Hh2; [done | done | unfold new; lia]. }
    unfold h2, c', n', cleaf, cint, nleaf, nint in Hload |- *.
    destruct (is_leaf c); rewrite Hload, bind_Ok; reflexivity. }
  exists (store h2 parent p'), middle, p', c', n'.
  split; [exact Hrun|]. split; [exact Hmid|].
  split; [apply lookup_ge_None_2; unfold new; lia|].
  split. { unfold store. apply list_lookup_insert_eq. lia. }
  split. { unfold store. rewrite list_lookup_insert_ne by done.
           unfold h2, store. apply list_lookup_insert_eq.
           rewrite length_insert, length_app. simpl. lia. }
  split. { unfold store. rewrite list_lookup_insert_ne by (unfold new; lia).
           unfold h2, store. rewrite list_lookup_insert_ne by (unfold new; lia).
           rewrite list_lookup_insert_eq by (rewrite length_app; simpl; unfold new; lia).
           done. }
  split. { intros r Hr1 Hr2 Hr3. unfold store.
           rewrite list_lookup_insert_ne by done. by apply Hh2. }
  split; [reflexivity|].
  split; [apply py_insert_length|].
  split; [reflexivity|].
  split; [apply py_insert_length|].
  split. { simpl. rewrite py_insert_lookup_lt by lia. done. }
  split. { simpl. apply py_insert_lookup. lia. }
  assert (Hkc : keys c' = take split_point (keys c)).
  { unfold c'. by destruct (is_leaf c). }
  split. { unfold c'. by destruct (is_leaf c). }
  split. { unfold n'. by destruct (is_leaf c). }
  split. { rewrite Hkc, length_take. lia. }
  split. { unfold n'. destruct (is_leaf c); simpl; rewrite length_drop; lia. }
  split; [exact Hkc|].
  split.
  - intros Hleaf. unfold c', n'. rewrite Hleaf. simpl.
    repeat split. apply take_drop.
  - intros Hleaf. unfold c', n'. rewrite Hleaf. simpl.
    repeat split.
    rewrite <- (take_drop split_point (keys c)) at 3.
    f_equal. symmetry. by apply drop_S.
Qed.

Lemma split_child_correct_witness :
  exists h', _split_child split_heap 1 0 = Ok h'
             /\ (keys <$> h' !! 1%nat) = Some ["3"]
             /\ (children <$> h' !! 1%nat) = Some [0%nat; 2%nat].
Proof.
  destruct (split_child_correct split_heap 1%nat 0%nat 0%nat
              (mkNode [] [] [0%nat] false None)
              (mkNode ["1"; "2"; "3"; "4"; "5"] ["a"; "b"; "c"; "d"; "e"] [] true None)
              3 eq_refl eq_refl eq_refl ltac:(lia) eq_refl)
    as (h' & middle & p' & c' & n' & Hrun & Hmid & _ & Hp' & _ & _ & _ & Hk & _ & Hch & _).
  exists h'. split; [exact Hrun|].
  rewrite Hp'. simpl. rewrite Hk, Hch.
  simpl in Hmid. injection Hmid as <-. split; reflexivity.
Defined.

(** C1, B+Tree side. After [insert("1".."6")] on a tree of degree 3 the
    root separator is ["3"]; [insert("3", "new")] descends with [>] into
    the left leaf, [get("3")] descends with [>=] into the right leaf and
    returns the value of the first insert, not ["new"]. *)
Theorem bplus_get_after_reinsert_is_stale :
  (t ← tree6; t ← insert t "3" "new"; get t "3") = Ok (Some "value_3")
  /\ (t ← tree6; t ← insert t "3" "new"; get t "3") <> Ok (Some "new").
Proof. split; [vm_compute; reflexivity | vm_compute; discriminate]. Qed.

Lemma scan_le (p : string -> bool) (ks : list string) : (scan p ks <= length ks)%nat.
Proof. induction ks as [|k ks IH]; simpl; [lia|]. destruct (p k); simpl; lia. Qed.

Lemma scan_py_insert (p : string -> bool) (x : string) (ks : list string) :
  p x = false -> scan p (py_insert (scan p ks) x ks) = scan p ks.
Proof.
  intros Hx. unfold py_insert. induction ks as [|k ks IH]; simpl.
  - by rewrite Hx.
  - destruct (p k) eqn:Hk; simpl.
    + by rewrite Hk, IH.
    + by rewrite Hx.
Qed.

Lemma str_gt_irrefl key : str_gt key key = false.
Proof.
  unfold str_gt, String.ltb.
  pose proof (String.compare_antisym key key) as H.
  destruct (String.compare key key); simpl in H; congruence.
Qed.

(** Within one leaf the newest duplicate does win: it is inserted before
    the older entry and [_search] returns the first match. So on a tree
    that is a single leaf with room left, [get] after [insert] returns the
    inserted value whatever the leaf held. *)
Lemma bplus_leaf_get_after_insert (t : BPlusTree) (n : Node) (key value : string) :
  nodes t !! root t = Some n ->
  is_leaf n = true ->
  length (values n) = length (keys n) ->
  Z.of_nat (length (keys n)) <> max_keys t ->
  (t' ← insert t key value; get t' key) = Ok (Some value).
Proof.
  intros Hn Hleaf Hlen Hroom.
  assert (Hr : (root t < length (nodes t))%nat) by (by eapply lookup_lt_Some).
  unfold insert. rewrite (load_Some _ _ _ Hn), bind_Ok.
  unfold len_is. destruct (Z.eqb_spec (Z.of_nat (length (keys n))) (max_keys t)); [done|].
  unfold fuel_of, _insert_non_full.
  rewrite (load_Some _ _ _ Hn), bind_Ok, Hleaf, !bind_Ok.
  unfold get, fuel_of, _search. cbn [nodes root].
  set (n' := mkNode _ _ _ _ _).
  assert (Hn' : store (nodes t) (root t) n' !! root t = Some n').
  { unfold store. by apply list_lookup_insert_eq. }
  rewrite (load_Some _ _ _ Hn'), bind_Ok. unfold n'. cbn [is_leaf keys values].
  rewrite !scan_py_insert by apply str_gt_irrefl.
  unfold key_at. rewrite py_insert_lookup by apply scan_le.
  rewrite String.eqb_refl.
  unfold py_index. rewrite py_insert_lookup by (rewrite Hlen; apply scan_le).
  done.
Qed.

Lemma bplus_leaf_reinsert_newest :
  (t ← insert (init 3) "k" "v1"; t ← insert t "k" "v2"; get t "k") = Ok (Some "v2").
Proof. vm_compute. reflexivity. Qed.

(** Deleting from a leaf that does not hold the key raises [KeyError]. *)
Lemma delete_from_leaf_absent (h : heap) (node : ref) (n : Node) (key : string) :
  h !! node = Some n -> py_in key (keys n) = false ->
  _delete_from_leaf h node key = Raise (KeyError key).
Proof.
  intros Hn Hin. unfold _delete_from_leaf.
  rewrite (load_Some _ _ _ Hn), bind_Ok. by rewrite Hin.
Qed.

(** So does [delete] on a tree that is a single leaf. *)
Lemma delete_absent_leaf_root (t : BPlusTree) (n : Node) (key : string) :
  nodes t !! root t = Some n -> is_leaf n = true -> py_in key (keys n) = false ->
  delete t key = Raise (KeyError key).
Proof.
  intros Hn Hleaf Hin. unfold delete, fuel_of, _delete.
  rewrite (load_Some _ _ _ Hn), bind_Ok, Hleaf.
  by rewrite (delete_from_leaf_absent _ _ _ _ Hn Hin).
Qed.

Lemma py_in_elem key (ks : list string) : py_in key ks = true <-> key ∈ ks.
Proof.
  unfold py_in. rewrite existsb_exists. split.
  - intros (k & Hin & ->%String.eqb_eq). by apply list_elem_of_In.
  - intros Hin. exists key. split; [by apply list_elem_of_In | apply String.eqb_refl].
Qed.

Lemma elem_of_node_keys (f : Node -> list string) (h : heap) (r : ref) (n : Node) key :
  h !! r = Some n -> key ∈ f n -> key ∈ concat (map f h).
Proof.
  intros Hn Hk. apply list_elem_of_In, in_concat. exists (f n).
  split; [|by apply list_elem_of_In].
  apply in_map, list_elem_of_In. by eapply list_elem_of_lookup_2.
Qed.

Lemma load_Ok (h : heap) (r : ref) (n : Node) : load h r = Ok n -> h !! r = Some n.
Proof. unfold load. destruct (h !! r); by intros [= ->]. Qed.

(** [_delete] returns normally only for a key that some leaf holds or that
    is a separator of some internal node: the stub [_delete_internal_key]
    is the only way past an absent key. *)
Lemma _delete_ok_only_if_present_or_separator fuel mink : forall h node key h',
  _delete fuel mink h node key = Ok h' ->
  key ∈ leaf_keys h \/ key ∈ internal_keys h.
Proof.
  induction fuel as [|fuel IH]; intros h node key h'; [discriminate|].
  simpl. destruct (load h node) as [n| |] eqn:Hload; try discriminate.
  apply load_Ok in Hload. rewrite bind_Ok.
  destruct (is_leaf n) eqn:Hleaf.
  - unfold _delete_from_leaf. rewrite (load_Some _ _ _ Hload), bind_Ok.
    destruct (py_in key (keys n)) eqn:Hin; [|discriminate].
    intros _. left. unfold leaf_keys.
    apply (elem_of_node_keys _ h node n); [done|].
    rewrite Hleaf. by apply py_in_elem.
  - unfold _delete_from_internal. rewrite (load_Some _ _ _ Hload), bind_Ok.
    unfold key_at.
    destruct (keys n !! scan (str_gt key) (keys n)) as [k|] eqn:Hk.
    1: destruct (String.eqb key k) eqn:Heq.
    1:{ intros _. right. apply String.eqb_eq in Heq. subst k.
        apply (elem_of_node_keys _ h node n); [done|].
        rewrite Hleaf. by eapply list_elem_of_lookup_2. }
    all: destruct (py_index (children n) _) as [child| |]; try discriminate;
      rewrite bind_Ok; destruct (load h child) as [c| |]; try discriminate;
      rewrite bind_Ok; unfold _fix_child;
      destruct (len_is (keys c) mink); rewrite ?bind_Ok; apply IH.
Qed.

Lemma delete_ok_only_if_present_or_separator (t t' : BPlusTree) key :
  delete t key = Ok t' ->
  key ∈ leaf_keys (nodes t) \/ key ∈ internal_keys (nodes t).
Proof.
  unfold delete.
  destruct (_delete _ _ _ _ _) as [h| |] eqn:Hdel; try discriminate.
  intros _. by eapply _delete_ok_only_if_present_or_separator.
Qed.


(** The same stub makes [delete] of a stored key that is also a separator
    a silent no-op. *)
Lemma bplus_delete_present_separator_is_noop :
  (t ← tree6; delete t "3") = tree6
  /\ (t ← tree6; t ← delete t "3"; get t "3") = Ok (Some "value_3").
Proof. split; vm_compute; reflexivity. Qed.

End BPlusProofs.

(** * Properties of the string primitives *)

Section StringFacts.
Implicit Types (s a b : string) (c : ascii).

Lemma str_app_cons c a s : String c a +:+ s = String c (a +:+ s).
Proof. reflexivity. Qed.

Lemma str_app_nil_l s : "" +:+ s = s.
Proof. reflexivity. Qed.

Lemma str_app_assoc a b s : (a +:+ b) +:+ s = a +:+ (b +:+ s).
Proof.
  induction a as [|c a IH]; [done|].
  by rewrite !str_app_cons, IH.
Qed.


Lemma contains_char_app c a b :
  contains_char c (a +:+ b) = contains_char c a || contains_char c b.
Proof.
  induction a as [|c' a IH]; [done|].
  rewrite str_app_cons. simpl. by rewrite IH, orb_assoc.
Qed.

Lemma universal_newlines_id s :
  contains_char carriage_return s = false -> universal_newlines s = s.
Proof.
  induction s as [|c s IH]; simpl; [done|].
  intros [Hc Hs]%orb_false_iff. rewrite Hc. by rewrite IH.
Qed.

Lemma text_lines_line a s :
  contains_char newline a = false ->
  text_lines (a +:+ String newline s) = (a +:+ String newline "") :: text_lines s.
Proof.
  induction a as [|c a IH]; [done|].
  simpl. intros [Hc Ha]%orb_false_iff.
  rewrite ?str_app_cons. simpl. by rewrite Hc, IH.
Qed.

Lemma lstrip_length s : (String.length (lstrip s) <= String.length s)%nat.
Proof.
  induction s as [|c s IH]; simpl; [done|].
  destruct (py_isspace c); simpl; lia.
Qed.

(** A string that [lstrip] leaves alone keeps its first character when
    more text follows. *)
Lemma lstrip_app a s :
  lstrip a = a -> (a = "" -> lstrip s = s) -> lstrip (a +:+ s) = a +:+ s.
Proof.
  destruct a as [|c a]; [auto|].
  rewrite str_app_cons. simpl.
  intros Ha _. destruct (py_isspace c); [|done].
  pose proof (lstrip_length a) as Hl. rewrite Ha in Hl. simpl in Hl. lia.
Qed.

Lemma rstrip_cons_not_nil c s : py_isspace c = false -> rstrip (String c s) <> "".
Proof. intros Hc. simpl. rewrite Hc. by destruct (rstrip s). Qed.

Lemma rstrip_app a b : rstrip b <> "" -> rstrip (a +:+ b) = a +:+ rstrip b.
Proof.
  intros Hb. induction a as [|c a IH]; [done|].
  rewrite !str_app_cons. simpl. rewrite IH.
  destruct (a +:+ rstrip b) eqn:E; [|done].
  destruct a; [by rewrite str_app_nil_l in E | by rewrite str_app_cons in E].
Qed.

Lemma rstrip_newline s : rstrip (s +:+ String newline "") = rstrip s.
Proof.
  induction s as [|c s IH]; [done|].
  rewrite str_app_cons. simpl. by rewrite IH.
Qed.

Lemma split_colon_app a s :
  contains_char colon a = false ->
  split_colon (a +:+ String colon s) = Some (a, s).
Proof.
  induction a as [|c a IH]; [done|].
  simpl. intros [Hc Ha]%orb_false_iff.
  rewrite ?str_app_cons. simpl. by rewrite Hc, IH.
Qed.
End StringFacts.

(** * Properties of dictionaries *)

Section DictFacts.
Context {V : Type}.
Implicit Types (d m : dict V) (k key : string) (v : V).

Lemma dict_get_set_eq key v d : dict_get key (dict_set key v d) = Some v.
Proof.
  induction d as [|[k0 v0] d IH]; simpl.
  - by rewrite String.eqb_refl.
  - destruct (String.eqb k0 key) eqn:E; simpl; rewrite E; done.
Qed.

Lemma dict_get_set_ne key k v d :
  key <> k -> dict_get k (dict_set key v d) = dict_get k d.
Proof.
  intros Hne. induction d as [|[k0 v0] d IH]; simpl.
  - by rewrite (proj2 (String.eqb_neq key k) Hne).
  - destruct (String.eqb k0 key) eqn:E; simpl.
    + apply String.eqb_eq in E. subst k0.
      by rewrite (proj2 (String.eqb_neq key k) Hne).
    + by rewrite IH.
Qed.

Lemma dict_get_None key d : dict_get key d = None <-> key ∉ dict_keys d.
Proof.
  induction d as [|[k0 v0] d IH]; simpl.
  - split; [intros _; apply not_elem_of_nil | done].
  - rewrite not_elem_of_cons. destruct (String.eqb k0 key) eqn:E.
    + apply String.eqb_eq in E. subst. split; [done | intros [? _]; done].
    + apply String.eqb_neq in E. rewrite IH. unfold dict_keys.
      split; [intros H; split; [congruence | exact H] | by intros [_ H]].
Qed.

Lemma dict_keys_set key v d :
  dict_keys (dict_set key v d) =
  if dict_in key d then dict_keys d else dict_keys d ++ [key].
Proof.
  unfold dict_in. induction d as [|[k0 v0] d IH]; simpl; [done|].
  destruct (String.eqb k0 key) eqn:E; simpl; [done|].
  rewrite IH. by destruct (dict_get key d).
Qed.


Lemma dict_set_not_nil key v d : dict_set key v d <> [].
Proof. destruct d as [|[k0 v0] d]; simpl; [done|]. by destruct (String.eqb k0 key). Qed.

Lemma dict_set_fresh key v d :
  key ∉ dict_keys d -> dict_set key v d = d ++ [(key, v)].
Proof.
  induction d as [|[k0 v0] d IH]; simpl; [done|].
  rewrite not_elem_of_cons. intros [Hne Hnin].
  rewrite (proj2 (String.eqb_neq k0 key)) by done. by rewrite IH.
Qed.

Lemma dict_set_NoDup key v d :
  NoDup (dict_keys d) -> NoDup (dict_keys (dict_set key v d)).
Proof.
  intros Hd. rewrite dict_keys_set. unfold dict_in.
  destruct (dict_get key d) eqn:E; [done|].
  apply dict_get_None in E.
  apply NoDup_app. split_and!; [done | | apply NoDup_singleton].
  intros x Hx ->%list_elem_of_singleton. done.
Qed.

Lemma dict_get_app key d m :
  dict_get key (d ++ m) =
  match dict_get key d with Some v => Some v | None => dict_get key m end.
Proof.
  induction d as [|[k0 v0] d IH]; simpl; [done|].
  by destruct (String.eqb k0 key).
Qed.

Lemma dict_get_Some_elem key v d : dict_get key d = Some v -> (key, v) ∈ d.
Proof.
  induction d as [|[k0 v0] d IH]; simpl; [done|].
  destruct (String.eqb k0 key) eqn:E.
  - apply String.eqb_eq in E. intros [= ->]. subst. apply list_elem_of_here.
  - intros H. apply list_elem_of_further. auto.
Qed.

Lemma dict_get_elem_NoDup key v d :
  NoDup (dict_keys d) -> (key, v) ∈ d -> dict_get key d = Some v.
Proof.
  induction d as [|[k0 v0] d IH]; simpl.
  - intros _ H. by apply elem_of_nil in H.
  - intros [Hnin Hd]%NoDup_cons [Heq|Hin]%elem_of_cons.
    + injection Heq as <- <-. by rewrite String.eqb_refl.
    + destruct (String.eqb k0 key) eqn:E; [|auto].
      apply String.eqb_eq in E. subst k0. exfalso. apply Hnin.
      unfold dict_keys. apply list_elem_of_fmap. by exists (key, v).
Qed.

(** With distinct keys the first and the last binding of a key agree. *)
Lemma dict_get_reverse key d :
  NoDup (dict_keys d) -> dict_get key (reverse d) = dict_get key d.
Proof.
  intros Hd.
  assert (Hr : NoDup (dict_keys (reverse d))).
  { unfold dict_keys. by rewrite fmap_reverse, reverse_Permutation. }
  destruct (dict_get key d) as [v|] eqn:E.
  - apply dict_get_elem_NoDup; [done|].
    apply dict_get_Some_elem in E. by apply elem_of_reverse.
  - apply dict_get_None. apply dict_get_None in E.
    unfold dict_keys in *. by rewrite fmap_reverse, elem_of_reverse.
Qed.

(** [update] lets the last binding of a key among the new items win. *)
Lemma dict_get_update key m (items : list (string * V)) :
  dict_get key (dict_update m items) =
  match dict_get key (reverse items) with
  | Some v => Some v
  | None => dict_get key m
  end.
Proof.
  unfold dict_update. revert m.
  induction items as [|[k0 v0] items IH]; intros m; simpl; [done|].
  rewrite IH, reverse_cons, dict_get_app.
  destruct (dict_get key (reverse items)); [done|].
  simpl. destruct (String.eqb k0 key) eqn:E.
  - apply String.eqb_eq in E. subst. apply dict_get_set_eq.
  - apply String.eqb_neq in E. by apply dict_get_set_ne.
Qed.

Lemma dict_update_NoDup m (items : list (string * V)) :
  NoDup (dict_keys m) -> NoDup (dict_keys (dict_update m items)).
Proof.
  unfold dict_update. revert m.
  induction items as [|[k0 v0] items IH]; intros m Hm; simpl; [done|].
  apply IH. by apply dict_set_NoDup.
Qed.

(** Reading back what [json.dump] wrote for a dictionary. *)
Lemma dict_get_reload key d :
  NoDup (dict_keys d) -> dict_get key (dict_update [] d) = dict_get key d.
Proof.
  intros Hd. rewrite dict_get_update, dict_get_reverse by done.
  by destruct (dict_get key d).
Qed.

End DictFacts.

(** * Properties of the LSM engine *)

Module LSMProofs.
Import LSM Scenarios.

(** ** One [insert] call, case by case *)

Lemma insert_wal_failed e key value t d :
  wal_append_ok e = false ->
  insert e key value t d =
    (Some (IOError ("Failed to write to WAL: " +:+ os_error e)), t, d).
Proof. intros H. unfold insert. by rewrite H. Qed.

Lemma insert_below e key value t d :
  wal_append_ok e = true ->
  Z.of_nat (length (dict_set key value (memtable t))) < max_memtable_size t ->
  insert e key value t d =
    (None,
     mkLSM (dict_set key value (memtable t)) (sstables t)
           (max_memtable_size t) (sstable_dir t),
     wal_append d (wal_line key value)).
Proof.
  intros Hw Hlen. unfold insert. rewrite Hw. simpl.
  destruct (Z.geb_spec (Z.of_nat (length (dict_set key value (memtable t))))
              (max_memtable_size t)); [lia | done].
Qed.

Lemma insert_flushes e key value t d :
  wal_append_ok e = true -> sstable_write_ok e = true ->
  max_memtable_size t <= Z.of_nat (length (dict_set key value (memtable t))) ->
  insert e key value t d =
    (None,
     mkLSM [] (flush_name (sstable_dir t) (now e) :: sstables t)
           (max_memtable_size t) (sstable_dir t),
     mkDisk None (<[flush_name (sstable_dir t) (now e) :=
                      Json (dict_set key value (memtable t))]> (files d))).
Proof.
  intros Hw Hs Hlen. unfold insert. rewrite Hw. simpl.
  destruct (Z.geb_spec (Z.of_nat (length (dict_set key value (memtable t))))
              (max_memtable_size t)); [|lia].
  unfold _flush_memtable. simpl. rewrite Hs.
  pose proof (dict_set_not_nil key value (memtable t)).
  by destruct (dict_set key value (memtable t)).
Qed.

Lemma insert_flush_failed e key value t d :
  wal_append_ok e = true -> sstable_write_ok e = false ->
  max_memtable_size t <= Z.of_nat (length (dict_set key value (memtable t))) ->
  insert e key value t d =
    (Some (IOError ("Failed to flush memtable to SSTable: " +:+ os_error e)),
     mkLSM (dict_set key value (memtable t)) (sstables t)
           (max_memtable_size t) (sstable_dir t),
     wal_append d (wal_line key value)).
Proof.
  intros Hw Hs Hlen. unfold insert. rewrite Hw. simpl.
  destruct (Z.geb_spec (Z.of_nat (length (dict_set key value (memtable t))))
              (max_memtable_size t)); [|lia].
  unfold _flush_memtable. simpl. rewrite Hs.
  pose proof (dict_set_not_nil key value (memtable t)).
  by destruct (dict_set key value (memtable t)).
Qed.

(** The four ways an [insert] can end. *)
Lemma insert_cases e key value t d :
  let m := dict_set key value (memtable t) in
  let t1 := mkLSM m (sstables t) (max_memtable_size t) (sstable_dir t) in
  let d1 := wal_append d (wal_line key value) in
  (exists msg, insert e key value t d = (Some (IOError msg), t, d))
  \/ (Z.of_nat (length m) < max_memtable_size t
      /\ insert e key value t d = (None, t1, d1))
  \/ (max_memtable_size t <= Z.of_nat (length m)
      /\ exists msg, insert e key value t d = (Some (IOError msg), t1, d1))
  \/ (max_memtable_size t <= Z.of_nat (length m)
      /\ insert e key value t d =
           (None,
            mkLSM [] (flush_name (sstable_dir t) (now e) :: sstables t)
                  (max_memtable_size t) (sstable_dir t),
            mkDisk None (<[flush_name (sstable_dir t) (now e) := Json m]> (files d)))).
Proof.
  intros m t1 d1.
  destruct (wal_append_ok e) eqn:Hw.
  - destruct (Z.lt_ge_cases (Z.of_nat (length m)) (max_memtable_size t)) as [Hlt|Hge].
    + right; left. split; [done|]. by apply insert_below.
    + destruct (sstable_write_ok e) eqn:Hs.
      * right; right; right. split; [done|]. by apply insert_flushes.
      * right; right; left. split; [done|]. eexists. by apply insert_flush_failed.
  - left. eexists. by apply insert_wal_failed.
Qed.

(** C6. When the append to the write-ahead log fails, [insert] raises an
    [IOError] and leaves the memtable and the SSTable list as they were. *)
Theorem insert_wal_failure_is_atomic e key value t d :
  wal_append_ok e = false ->
  exists msg t' d',
    insert e key value t d = (Some (IOError msg), t', d')
    /\ memtable t' = memtable t
    /\ sstables t' = sstables t.
Proof.
  intros H. rewrite (insert_wal_failed _ _ _ _ _ H).
  by eexists _, t, d.
Qed.

Lemma insert_wal_failure_is_atomic_witness :
  exists msg t' d',
    insert env_wal_down "k" "v" (fresh 5).1 (fresh 5).2 = (Some (IOError msg), t', d')
    /\ memtable t' = memtable (fresh 5).1
    /\ sstables t' = sstables (fresh 5).1.
Proof.
  apply (insert_wal_failure_is_atomic env_wal_down "k" "v" (fresh 5).1 (fresh 5).2).
  reflexivity.
Defined.

(** C10. With [max_memtable_size >= 1], after an [insert] that returns
    without raising the memtable holds fewer than [max_memtable_size]
    entries. *)
Theorem memtable_bound_after_insert e key value t d t' d' :
  1 <= max_memtable_size t ->
  insert e key value t d = (None, t', d') ->
  max_memtable_size t' = max_memtable_size t
  /\ Z.of_nat (length (memtable t')) < max_memtable_size t'.
Proof.
  intros Hmax Hret.
  destruct (insert_cases e key value t d)
    as [[msg H]|[[Hlt H]|[[Hge [msg H]]|[Hge H]]]];
    rewrite H in Hret; try discriminate;
    injection Hret as <- <-; simpl; split; (done || lia).
Qed.

Lemma memtable_bound_after_insert_witness :
  let o := insert (env_ok 7) "k" "v" (fresh 1).1 (fresh 1).2 in
  o.1.1 = None /\ Z.of_nat (length (memtable o.1.2)) < max_memtable_size o.1.2.
Proof.
  split; [reflexivity|].
  eapply (memtable_bound_after_insert (env_ok 7) "k" "v" (fresh 1).1 (fresh 1).2).
  - vm_compute. discriminate.
  - reflexivity.
Defined.

(** C1, LSM side. After an [insert] that does not flush, [get] of the key
    returns the inserted value, whatever was inserted before. *)
Lemma lsm_get_after_insert e key value t d :
  wal_append_ok e = true ->
  Z.of_nat (length (dict_set key value (memtable t))) < max_memtable_size t ->
  let o := insert e key value t d in
  o.1.1 = None /\ get key o.1.2 o.2 = Some value.
Proof.
  intros Hw Hlen. rewrite (insert_below _ _ _ _ _ Hw Hlen). simpl.
  split; [done|]. unfold get. simpl. by rewrite dict_get_set_eq.
Qed.

(** ** Reading snapshots *)

Lemma read_sstable_NoDup d path data :
  read_sstable d path = Some data -> NoDup (dict_keys data).
Proof.
  unfold read_sstable. destruct (files d !! path) as [[items|]|]; try done.
  intros [= <-]. apply dict_update_NoDup. constructor.
Qed.

Lemma read_sstable_written (fs : gmap string sst_file) w path data :
  NoDup (dict_keys data) ->
  fs !! path = Some (Json data) ->
  forall key, (read_sstable (mkDisk w fs) path ≫= dict_get key) = dict_get key data.
Proof.
  intros Hd Hf key. unfold read_sstable. simpl. rewrite Hf. simpl.
  by apply dict_get_reload.
Qed.

(** ** Sequences of calls *)












(** ** Compaction *)

Lemma merge_sstables_cons d path l :
  merge_sstables d (path :: l) =
  match read_sstable d path with
  | Some data => dict_update (merge_sstables d l) data
  | None => merge_sstables d l
  end.
Proof. unfold merge_sstables. by rewrite reverse_cons, fold_left_app. Qed.

Lemma merge_sstables_NoDup d l : NoDup (dict_keys (merge_sstables d l)).
Proof.
  induction l as [|path l IH].
  - constructor.
  - rewrite merge_sstables_cons. destruct (read_sstable d path); [|done].
    by apply dict_update_NoDup.
Qed.

(** Merging oldest to newest gives every key the value of the newest
    SSTable that holds it, which is what [get] finds. *)
Lemma merge_sstables_get key d l :
  dict_get key (merge_sstables d l) = get_sstables key d l.
Proof.
  induction l as [|path l IH]; [done|].
  rewrite merge_sstables_cons. simpl.
  destruct (read_sstable d path) as [data|] eqn:Hread; [|done].
  rewrite dict_get_update, dict_get_reverse by (by eapply read_sstable_NoDup).
  by rewrite IH.
Qed.


Lemma remove_files_lookup l d path :
  files (fold_left remove_file l d) !! path =
  if bool_decide (path ∈ l) then None else files d !! path.
Proof.
  revert d. induction l as [|p l IH]; intros d.
  - rewrite bool_decide_eq_false_2; [done | apply not_elem_of_nil].
  - change (fold_left remove_file (p :: l) d)
      with (fold_left remove_file l (remove_file d p)).
    rewrite IH. unfold remove_file. cbn [files].
    destruct (decide (path = p)) as [->|Hne].
    + rewrite lookup_delete_eq.
      rewrite (bool_decide_eq_true_2 (p ∈ p :: l)) by apply list_elem_of_here.
      by case_bool_decide.
    + rewrite lookup_delete_ne by done.
      destruct (decide (path ∈ l)) as [Hin|Hnin].
      * rewrite (bool_decide_eq_true_2 _ Hin).
        by rewrite bool_decide_eq_true_2 by (by apply list_elem_of_further).
      * rewrite (bool_decide_eq_false_2 _ Hnin).
        rewrite bool_decide_eq_false_2; [done|].
        by intros [?|?]%elem_of_cons.
Qed.

Lemma compact_merges e t d :
  (2 <= length (sstables t))%nat -> sstable_write_ok e = true ->
  compact e t d =
    (None,
     mkLSM (memtable t) [compact_name (sstable_dir t) (now e)]
           (max_memtable_size t) (sstable_dir t),
     fold_left remove_file (sstables t)
       (write_sstable d (compact_name (sstable_dir t) (now e))
                      (merge_sstables d (sstables t)))).
Proof.
  intros Hlen Hs. unfold compact. rewrite Hs.
  destruct (Nat.leb_spec (length (sstables t)) 1); [lia | done].
Qed.

(** C8 (amended). On an engine with at least one SSTable, when the write
    of the merged snapshot succeeds and its name is not already in the
    SSTable list, [compact] returns normally, exactly one SSTable is listed
    afterwards, and [get] returns for every key what it returned before;
    when there were several SSTables the one listed is the merged one,
    which gives each key the value of the newest SSTable that held it, and
    the files of the merged SSTables are gone. *)
Theorem compact_preserves_get e t d :
  sstables t <> [] ->
  sstable_write_ok e = true ->
  compact_name (sstable_dir t) (now e) ∉ sstables t ->
  let o := compact e t d in
  o.1.1 = None
  /\ length (sstables o.1.2) = 1%nat
  /\ (forall key, get key o.1.2 o.2 = get key t d)
  /\ ((2 <= length (sstables t))%nat ->
        exists merged,
          sstables o.1.2 = [compact_name (sstable_dir t) (now e)]
          /\ files o.2 !! compact_name (sstable_dir t) (now e) = Some (Json merged)
          /\ (forall key, dict_get key merged = get_sstables key d (sstables t))
          /\ (forall path, path ∈ sstables t -> files o.2 !! path = None)).
Proof.
  intros Hne Hs Hfresh o.
  destruct (decide (2 <= length (sstables t))%nat) as [Hlen|Hlen].
  - unfold o. rewrite (compact_merges _ _ _ Hlen Hs). simpl.
    set (new := compact_name (sstable_dir t) (now e)) in *.
    set (merged := merge_sstables d (sstables t)).
    set (d' := fold_left remove_file (sstables t) (write_sstable d new merged)).
    assert (Hnew : files d' !! new = Some (Json merged)).
    { unfold d'. rewrite remove_files_lookup, bool_decide_eq_false_2 by done.
      simpl. apply lookup_insert_eq. }
    split; [done|]. split; [done|]. split.
    + intros key. unfold get. simpl.
      destruct (dict_get key (memtable t)); [done|].
      pose proof (read_sstable_written (files d') (wal d') new merged
                    (merge_sstables_NoDup _ _) Hnew key) as Hread.
      replace (mkDisk (wal d') (files d')) with d' in Hread by (by destruct d').
      rewrite <- merge_sstables_get. fold merged. rewrite <- Hread.
      destruct (read_sstable d' new) as [data|]; simpl; [|done].
      by destruct (dict_get key data).
    + intros _. exists merged. split; [done|]. split; [done|]. split.
      * intros key. apply merge_sstables_get.
      * intros path Hin. unfold d'.
        by rewrite remove_files_lookup, bool_decide_eq_true_2.
  - assert (Hone : length (sstables t) = 1%nat).
    { destruct (sstables t) as [|? [|? ?]]; simpl in *; [done | done | lia]. }
    unfold o, compact. rewrite Hone. simpl.
    split; [done|]. split; [done|]. split; [done|]. intros ?. lia.
Qed.

Lemma compact_preserves_get_witness :
  let s := after_compact_and_flush in
  let o := compact (env_ok 1700000000004) s.1 s.2 in
  o.1.1 = None
  /\ length (sstables o.1.2) = 1%nat
  /\ get "a" o.1.2 o.2 = Some "new"
  /\ get "b" o.1.2 o.2 = Some "x".
Proof.
  intros s o.
  destruct (compact_preserves_get (env_ok 1700000000004) s.1 s.2)
    as (Hret & Hlen & Hget & _).
  - vm_compute. discriminate.
  - reflexivity.
  - apply (bool_decide_unpack _). vm_compute. reflexivity.
  - split; [exact Hret|]. split; [exact Hlen|].
    split; rewrite Hget; vm_compute; reflexivity.
Defined.

(** C8 as stated fails on an engine without SSTables, where [compact]
    returns at once and no snapshot remains, and on an engine whose list
    already holds the name the merged snapshot gets (a compaction, a flush
    and a compaction within one millisecond): the second [compact] deletes
    the file it has just written, and [get("a")] no longer finds the
    value. *)
Lemma compact_not_always_one_snapshot :
  (let o := compact (env_ok 1700000000000) (fresh 5).1 (fresh 5).2 in
   o.1.1 = None /\ length (sstables o.1.2) <> 1%nat)
  /\ (let s := collision_state in
      let o := compact (env_ok 1000) s.1 s.2 in
      o.1.1 = None
      /\ get "a" s.1 s.2 = Some "1"
      /\ get "a" o.1.2 o.2 = None).
Proof. split; vm_compute; repeat split; discriminate. Qed.

(** ** The write-ahead log *)

Lemma wal_safe_spec key value :
  wal_safe key value = true ->
  contains_char colon key = false
  /\ contains_char newline key = false
  /\ contains_char carriage_return key = false
  /\ contains_char newline value = false
  /\ contains_char carriage_return value = false
  /\ lstrip key = key
  /\ rstrip value = value.
Proof.
  unfold wal_safe. rewrite !andb_true_iff, !negb_true_iff, !String.eqb_eq.
  tauto.
Qed.

Lemma strip_wal_line key value :
  lstrip key = key -> rstrip value = value ->
  strip (wal_line key value) = key +:+ ":" +:+ value.
Proof.
  intros Hk Hv. unfold strip, wal_line.
  rewrite lstrip_app by done.
  rewrite rstrip_app by (by apply rstrip_cons_not_nil).
  f_equal. rewrite str_app_cons, str_app_nil_l.
  change (rstrip (String ":" (value +:+ String newline "")))
    with (match rstrip (value +:+ String newline "") with
          | EmptyString => String ":" EmptyString
          | r => String ":" r
          end).
  rewrite rstrip_newline, Hv. by destruct value.
Qed.

(** One line written by [insert] is read back as the same assignment. *)
Lemma replay_wal_line m key value :
  wal_safe key value = true ->
  replay_line m (wal_line key value) = dict_set key value m.
Proof.
  intros (Hc & _ & _ & _ & _ & Hk & Hv)%wal_safe_spec.
  unfold replay_line. rewrite strip_wal_line by done.
  change (":" +:+ value) with (String colon value).
  by rewrite split_colon_app.
Qed.

Lemma wal_line_no_cr key value :
  wal_safe key value = true ->
  contains_char carriage_return (wal_line key value) = false.
Proof.
  intros (_ & _ & Hk & _ & Hv & _)%wal_safe_spec.
  unfold wal_line. rewrite !contains_char_app, Hk, Hv. reflexivity.
Qed.












(** ** Range queries *)






(** ** Restart *)

(** C9. After a compaction at time [...002] and a flush at [...003] the
    running engine lists the flushed snapshot before the compacted one, and
    [get("a")] returns the value flushed last. A fresh engine over the same
    storage sorts the paths in descending order; ["sstable_compact_..."]
    sorts above every ["sstable_<digits>"], so the older compacted
    snapshot comes first and [get("a")] returns the value it holds. *)
Theorem restart_puts_compacted_snapshot_first :
  let s := after_compact_and_flush in
  let t' := init 1 "sstables" s.2 in
  sstables s.1 = [ "sstables/sstable_1700000000003.json";
                   "sstables/sstable_compact_1700000000002.json" ]
  /\ sstables t' = [ "sstables/sstable_compact_1700000000002.json";
                     "sstables/sstable_1700000000003.json" ]
  /\ get "a" s.1 s.2 = Some "new"
  /\ get "a" t' s.2 = Some "old".
Proof. vm_compute. repeat split; reflexivity. Qed.

End LSMProofs.

(** * Properties of the in-memory LSM engine *)

Module AppLSMProofs.
Import AppLSM Scenarios.

Lemma app_range_memtable_get start_key end_key key (m result : dict (option string)) :
  NoDup (dict_keys m) ->
  dict_get key
    (fold_left (fun result kv =>
                  if in_range start_key end_key kv.1
                  then dict_set kv.1 kv.2 result
                  else result) m result)
  = match (if in_range start_key end_key key then dict_get key m else None) with
    | Some v => Some v
    | None => dict_get key result
    end.
Proof.
  revert result. induction m as [|[k v] m IH]; intros result Hnd; simpl.
  - by destruct (in_range start_key end_key key).
  - apply NoDup_cons in Hnd as [Hk Hnd]. simpl in Hk. rewrite IH by done.
    destruct (String.eqb k key) eqn:E.
    + apply String.eqb_eq in E. subst k.
      apply dict_get_None in Hk. rewrite Hk.
      destruct (in_range start_key end_key key); [|done].
      by rewrite dict_get_set_eq.
    + apply String.eqb_neq in E.
      destruct (in_range start_key end_key key);
        destruct (in_range start_key end_key k); try done.
      * destruct (dict_get key m); [done|]. by apply dict_get_set_ne.
      * by apply dict_get_set_ne.
Qed.

Lemma add_missing_get start_key end_key key (items result : dict (option string)) :
  dict_get key (fold_left (add_missing start_key end_key) items result)
  = match dict_get key result with
    | Some v => Some v
    | None => if in_range start_key end_key key then dict_get key items else None
    end.
Proof.
  revert result. induction items as [|[k v] items IH]; intros result; simpl.
  - destruct (dict_get key result); [done|].
    by destruct (in_range start_key end_key key).
  - rewrite IH. unfold add_missing, dict_in. simpl.
    destruct (String.eqb k key) eqn:E.
    + apply String.eqb_eq in E. subst k.
      destruct (dict_get key result) as [w|] eqn:Hres.
      * rewrite andb_false_r. by rewrite Hres.
      * rewrite andb_true_r.
        destruct (in_range start_key end_key key); [|by rewrite Hres].
        by rewrite dict_get_set_eq.
    + apply String.eqb_neq in E.
      destruct (in_range start_key end_key k && negb _); [|done].
      by rewrite dict_get_set_ne.
Qed.

Lemma add_missing_NoDup start_key end_key (items result : dict (option string)) :
  NoDup (dict_keys result) ->
  NoDup (dict_keys (fold_left (add_missing start_key end_key) items result)).
Proof.
  revert result. induction items as [|kv items IH]; intros result Hnd; simpl; [done|].
  apply IH. unfold add_missing.
  destruct (in_range start_key end_key kv.1 && negb _); [|done].
  by apply dict_set_NoDup.
Qed.

Lemma app_range_sstables_get start_key end_key key
    (l : list (dict (option string))) (result : dict (option string)) :
  dict_get key
    (fold_left (fun result sstable =>
                  fold_left (add_missing start_key end_key) sstable result) l result)
  = match dict_get key result with
    | Some v => Some v
    | None => if in_range start_key end_key key then first_binding key l else None
    end.
Proof.
  revert result. induction l as [|sstable l IH]; intros result; simpl.
  - destruct (dict_get key result); [done|].
    by destruct (in_range start_key end_key key).
  - rewrite IH, add_missing_get.
    destruct (dict_get key result); [done|].
    destruct (in_range start_key end_key key); [|done].
    by destruct (dict_get key sstable).
Qed.

Lemma app_range_memtable_NoDup start_key end_key (m result : dict (option string)) :
  NoDup (dict_keys result) ->
  NoDup (dict_keys
           (fold_left (fun result (kv : string * option string) =>
                         if in_range start_key end_key kv.1
                         then dict_set kv.1 kv.2 result
                         else result) m result)).
Proof.
  revert result. induction m as [|kv m IH]; intros result Hres; simpl; [done|].
  apply IH. destruct (in_range start_key end_key kv.1); [|done].
  by apply dict_set_NoDup.
Qed.

Lemma app_range_sstables_NoDup start_key end_key
    (l : list (dict (option string))) (result : dict (option string)) :
  NoDup (dict_keys result) ->
  NoDup (dict_keys
           (fold_left (fun result sstable =>
                         fold_left (add_missing start_key end_key) sstable result)
                      l result)).
Proof.
  revert result. induction l as [|sstable l IH]; intros result Hres; simpl; [done|].
  apply IH. by apply add_missing_NoDup.
Qed.

(** The range query of [app.py] lists every key once, with its newest
    binding, and lists exactly the keys of the range that have one. *)
Lemma app_range_query_unique_newest start_key end_key t :
  NoDup (dict_keys (memtable t)) ->
  let res := range_query start_key end_key t in
  NoDup (dict_keys res)
  /\ forall key, dict_get key res =
                 if in_range start_key end_key key then newest_binding key t else None.
Proof.
  intros Hnd res. split.
  - unfold res, range_query.
    apply app_range_sstables_NoDup, app_range_memtable_NoDup. constructor.
  - intros key. unfold res, range_query, newest_binding.
    rewrite app_range_sstables_get, app_range_memtable_get by done. simpl.
    destruct (in_range start_key end_key key); [|done].
    by destruct (dict_get key (memtable t)).
Qed.

(** It does not sort either: its result follows the sources. *)
Lemma app_range_query_unsorted :
  range_query "a" "c" app_overwritten_after_flush = [("b", Some "new"); ("a", Some "1")]
  /\ ascending (dict_keys (range_query "a" "c" app_overwritten_after_flush)) = false.
Proof. vm_compute. split; reflexivity. Qed.

End AppLSMProofs.

(** * More properties of the B+Tree engine *)

Module BPlusMore.
Import BPlus BPlusProofs Scenarios.

(** ** What is stored in the leaves *)

Lemma leaf_bag_app fld (h1 h2 : heap) :
  leaf_bag fld (h1 ++ h2) = leaf_bag fld h1 ++ leaf_bag fld h2.
Proof. unfold leaf_bag. by rewrite map_app, concat_app. Qed.

Lemma leaf_bag_store fld (h : heap) (r : ref) (old n : Node) :
  h !! r = Some old ->
  leaf_bag fld (store h r n) ++ leaf_field fld old ≡ₚ leaf_bag fld h ++ leaf_field fld n.
Proof.
  intros Hold. unfold store.
  rewrite insert_take_drop by (by eapply lookup_lt_Some).
  rewrite <- (take_drop_middle h r old Hold) at 3.
  rewrite !leaf_bag_app.
  change (leaf_bag fld (n :: drop (S r) h))
    with (leaf_field fld n ++ leaf_bag fld (drop (S r) h)).
  change (leaf_bag fld (old :: drop (S r) h))
    with (leaf_field fld old ++ leaf_bag fld (drop (S r) h)).
  rewrite <- !app_assoc. apply Permutation_app_head.
  rewrite (Permutation_app_comm (leaf_bag fld (drop (S r) h)) (leaf_field fld old)).
  rewrite (Permutation_app_comm (leaf_bag fld (drop (S r) h)) (leaf_field fld n)).
  rewrite !app_assoc. apply Permutation_app_tail, Permutation_app_comm.
Qed.


Lemma py_index_Ok {A} (l : list A) (i : nat) (x : A) :
  py_index l i = Ok x -> l !! i = Some x.
Proof. unfold py_index. destruct (l !! i); by intros [= ->]. Qed.


Section LeafBag.
Variable fld : Node -> list string.
Hypothesis fld_cases : fld = keys \/ fld = values.



Variables key value item : string.
Hypothesis item_cases : (fld = keys /\ item = key) \/ (fld = values /\ item = value).



End LeafBag.



(** ** Lookups *)

Lemma key_at_Some key ks index : key_at key ks index = true -> ks !! index = Some key.
Proof.
  unfold key_at. destruct (ks !! index) as [k|]; [|done].
  by intros ->%String.eqb_eq.
Qed.

Lemma search_sound fuel : forall (h : heap) (node : ref) key v,
  _search fuel h node key = Ok (Some v) ->
  exists r n i,
    h !! r = Some n /\ is_leaf n = true
    /\ keys n !! i = Some key /\ values n !! i = Some v.
Proof.
  induction fuel as [|fuel IH]; intros h node key v; [discriminate|].
  simpl. destruct (load h node) as [n| |] eqn:Hn; try discriminate.
  apply load_Ok in Hn. rewrite bind_Ok.
  destruct (is_leaf n) eqn:Hleaf.
  - destruct (key_at key (keys n) _) eqn:Hk; [|discriminate].
    apply key_at_Some in Hk.
    destruct (py_index (values n) _) as [v'| |] eqn:Hv; try discriminate.
    rewrite bind_Ok. intros [= ->]. apply py_index_Ok in Hv.
    by exists node, n, (scan (str_gt key) (keys n)).
  - destruct (py_index (children n) _) as [child| |]; try discriminate.
    rewrite bind_Ok. apply IH.
Qed.

(** X2. [get] never invents a value: what it returns for a key is stored
    beside that key, at the same position, in some leaf of the tree. *)
Theorem get_returns_stored_entry (t : BPlusTree) (key v : string) :
  get t key = Ok (Some v) ->
  exists r n i,
    nodes t !! r = Some n /\ is_leaf n = true
    /\ keys n !! i = Some key /\ values n !! i = Some v.
Proof. apply search_sound. Qed.

Lemma get_returns_stored_entry_witness :
  exists t r n i,
    tree6 = Ok t
    /\ nodes t !! r = Some n /\ is_leaf n = true
    /\ keys n !! i = Some "4" /\ values n !! i = Some "value_4".
Proof.
  assert (Ht : exists t, tree6 = Ok t) by (eexists; vm_compute; reflexivity).
  destruct Ht as [t Ht]. exists t.
  destruct (get_returns_stored_entry t "4" "value_4") as (r & n & i & H).
  - revert Ht. vm_compute. intros [= <-]. reflexivity.
  - by exists r, n, i.
Defined.

(** ** Deletion *)

Lemma py_list_index_lookup key (ks : list string) :
  py_in key ks = true -> ks !! py_list_index key ks = Some key.
Proof.
  unfold py_in, py_list_index. induction ks as [|k ks IH]; simpl; [done|].
  destruct (String.eqb key k) eqn:E; simpl.
  - apply String.eqb_eq in E. by subst.
  - exact IH.
Qed.

Lemma py_pop_Ok {A} (i : nat) (l l' : list A) :
  py_pop i l = Ok l' -> exists x, l !! i = Some x /\ l' = take i l ++ drop (S i) l.
Proof.
  unfold py_pop. destruct (l !! i) as [x|]; [|done].
  intros [= <-]. by exists x.
Qed.

Lemma pop_Permutation {A} (i : nat) (l : list A) (x : A) :
  l !! i = Some x -> l ≡ₚ x :: (take i l ++ drop (S i) l).
Proof.
  intros H. rewrite <- (take_drop_middle l i x H) at 1.
  symmetry. apply Permutation_middle.
Qed.

(** What [_delete_from_leaf] does when it returns. *)
Lemma delete_from_leaf_Ok (h h' : heap) (node : ref) key :
  _delete_from_leaf h node key = Ok h' ->
  exists n i v,
    h !! node = Some n
    /\ keys n !! i = Some key /\ values n !! i = Some v
    /\ h' = store h node (mkNode (take i (keys n) ++ drop (S i) (keys n))
                                 (take i (values n) ++ drop (S i) (values n))
                                 (children n) (is_leaf n) (next n)).
Proof.
  unfold _delete_from_leaf.
  destruct (load h node) as [n| |] eqn:Hn; try discriminate.
  apply load_Ok in Hn. rewrite bind_Ok.
  destruct (py_in key (keys n)) eqn:Hin; [|discriminate].
  pose proof (py_list_index_lookup _ _ Hin) as Hk.
  destruct (py_pop _ (keys n)) as [ks| |] eqn:Hks; try discriminate.
  rewrite bind_Ok.
  destruct (py_pop _ (values n)) as [vs| |] eqn:Hvs; try discriminate.
  rewrite bind_Ok. intros [= <-].
  apply py_pop_Ok in Hks as (_ & _ & ->). apply py_pop_Ok in Hvs as (v & Hv & ->).
  by exists n, (py_list_index key (keys n)), v.
Qed.

Lemma _delete_Ok fuel mink : forall (h h' : heap) (node : ref) key,
  _delete fuel mink h node key = Ok h' ->
  (h' = h /\ key ∈ internal_keys h)
  \/ (exists v, leaf_keys h ≡ₚ key :: leaf_keys h'
                /\ leaf_values h ≡ₚ v :: leaf_values h'
                /\ length h' = length h).
Proof.
  induction fuel as [|fuel IH]; intros h h' node key; [discriminate|].
  simpl. destruct (load h node) as [n| |] eqn:Hn; try discriminate.
  apply load_Ok in Hn. rewrite bind_Ok.
  destruct (is_leaf n) eqn:Hleaf.
  - intros (n0 & i & v & Hn0 & Hk & Hv & ->)%delete_from_leaf_Ok.
    rewrite Hn in Hn0. injection Hn0 as <-.
    rewrite Hleaf.
    set (n2 := mkNode (take i (keys n) ++ drop (S i) (keys n))
                      (take i (values n) ++ drop (S i) (values n))
                      (children n) true (next n)).
    right. exists v. split; [|split].
    + pose proof (leaf_bag_store keys h node n n2 Hn) as P.
      unfold leaf_field, n2 in P. cbn [is_leaf keys] in P. rewrite Hleaf in P.
      change (leaf_bag keys h ≡ₚ key :: leaf_bag keys (store h node n2)).
      apply (Permutation_app_inv_r (take i (keys n) ++ drop (S i) (keys n))).
      etrans; [symmetry; exact P|].
      etrans; [apply Permutation_app_head, (pop_Permutation i (keys n) key Hk)|].
      symmetry. apply Permutation_middle.
    + pose proof (leaf_bag_store values h node n n2 Hn) as P.
      unfold leaf_field, n2 in P. cbn [is_leaf values] in P. rewrite Hleaf in P.
      change (leaf_bag values h ≡ₚ v :: leaf_bag values (store h node n2)).
      apply (Permutation_app_inv_r (take i (values n) ++ drop (S i) (values n))).
      etrans; [symmetry; exact P|].
      etrans; [apply Permutation_app_head, (pop_Permutation i (values n) v Hv)|].
      symmetry. apply Permutation_middle.
    + unfold store. apply length_insert.
  - unfold _delete_from_internal. rewrite (load_Some _ _ _ Hn), bind_Ok.
    destruct (key_at key (keys n) _) eqn:Hk.
    + intros [= <-]. left. split; [done|]. apply key_at_Some in Hk.
      apply (elem_of_node_keys _ h node n); [done|].
      rewrite Hleaf. by eapply list_elem_of_lookup_2.
    + destruct (py_index (children n) _) as [child| |]; try discriminate.
      rewrite bind_Ok. destruct (load h child) as [c| |]; try discriminate.
      rewrite bind_Ok. unfold _fix_child.
      destruct (len_is (keys c) mink); rewrite ?bind_Ok; apply IH.
Qed.



(** ** String order *)

Lemma leb_trans a b c :
  String.leb a b = true -> String.leb b c = true -> String.leb a c = true.
Proof.
  intros H1 H2. apply Is_true_true.
  apply (transitivity (R:=String.le) (y:=b)); by apply Is_true_true.
Qed.

Lemma str_gt_not_leb a b : str_gt a b = true -> String.leb a b = false.
Proof.
  unfold str_gt, String.ltb, String.leb. rewrite (String.compare_antisym b a).
  by destruct (String.compare a b).
Qed.

Lemma leb_false_str_gt a b : String.leb a b = false -> str_gt a b = true.
Proof.
  unfold str_gt, String.ltb, String.leb. rewrite (String.compare_antisym b a).
  by destruct (String.compare a b).
Qed.

(** No key lies in a range whose end is below its start. *)
Lemma in_range_empty start_key end_key key :
  str_gt start_key end_key = true -> in_range start_key end_key key = false.
Proof.
  intros Hgt. apply str_gt_not_leb in Hgt. unfold in_range.
  destruct (String.leb start_key key) eqn:H1; [|done].
  destruct (String.leb key end_key) eqn:H2; [|done].
  by rewrite (leb_trans _ _ _ H1 H2) in Hgt.
Qed.

(** Past a key above the end of the range nothing is in the range. *)
Lemma in_range_above start_key end_key key key' :
  str_gt key end_key = true -> String.leb key key' = true ->
  in_range start_key end_key key' = false.
Proof.
  intros Hgt Hle. apply str_gt_not_leb in Hgt. unfold in_range.
  destruct (String.leb key' end_key) eqn:H2; [|by rewrite andb_false_r].
  by rewrite (leb_trans _ _ _ Hle H2) in Hgt.
Qed.

(** ** Range scans *)

Lemma range_leaf_sound start_key end_key (vs all : list string) :
  forall (ks : list string) (i : nat) results results' returned,
  drop i all = ks ->
  range_leaf start_key end_key vs i ks results = Ok (results', returned) ->
  exists found,
    results' = results ++ found
    /\ Forall (fun kv : string * string =>
                 in_range start_key end_key kv.1 = true
                 /\ exists j, all !! j = Some kv.1 /\ vs !! j = Some kv.2) found.
Proof.
  induction ks as [|key ks IH]; intros i results results' returned Hall; simpl.
  - intros [= <- _]. exists []. by rewrite app_nil_r.
  - assert (Hi : all !! i = Some key).
    { rewrite <- (Nat.add_0_r i), <- lookup_drop, Hall. done. }
    assert (Hrest : drop (S i) all = ks).
    { rewrite (drop_S _ _ _ Hi) in Hall. by injection Hall. }
    destruct (in_range start_key end_key key) eqn:Hin.
    + destruct (py_index vs i) as [v| |] eqn:Hv; try discriminate.
      rewrite bind_Ok. apply py_index_Ok in Hv.
      intros (found & -> & Hfound)%(IH _ _ _ _ Hrest).
      exists ((key, v) :: found). split; [by rewrite <- app_assoc|].
      constructor; [|done]. split; [done|]. by exists i.
    + destruct (str_gt key end_key).
      * intros [= <- _]. exists []. by rewrite app_nil_r.
      * apply (IH _ _ _ _ Hrest).
Qed.

Lemma range_chain_sound fuel (h : heap) start_key end_key :
  forall leaf results results',
  range_chain fuel h leaf start_key end_key results = Ok results' ->
  exists found,
    results' = results ++ found
    /\ Forall (fun kv : string * string =>
                 in_range start_key end_key kv.1 = true
                 /\ exists r n j, h !! r = Some n
                                  /\ keys n !! j = Some kv.1
                                  /\ values n !! j = Some kv.2) found.
Proof.
  induction fuel as [|fuel IH]; intros leaf results results'; [discriminate|].
  simpl. destruct leaf as [r|].
  - destruct (load h r) as [n| |] eqn:Hn; try discriminate.
    apply load_Ok in Hn. rewrite bind_Ok.
    destruct (range_leaf _ _ _ _ _ _) as [[res1 returned]| |] eqn:Hleaf; try discriminate.
    rewrite bind_Ok.
    apply (range_leaf_sound _ _ _ (keys n)) in Hleaf as (found1 & -> & Hf1); [|done].
    assert (Hf1' : Forall (fun kv : string * string =>
                 in_range start_key end_key kv.1 = true
                 /\ exists r n j, h !! r = Some n
                                  /\ keys n !! j = Some kv.1
                                  /\ values n !! j = Some kv.2) found1).
    { eapply Forall_impl; [exact Hf1|]. intros kv (Hin & j & Hk & Hv).
      split; [done|]. by exists r, n, j. }
    destruct returned.
    + intros [= <-]. by exists found1.
    + intros (found2 & -> & Hf2)%IH. exists (found1 ++ found2).
      split; [by rewrite app_assoc|]. by apply Forall_app.
  - intros [= <-]. exists []. by rewrite app_nil_r.
Qed.

Lemma range_query_sound_aux
    (t : BPlusTree) (start_key end_key : string) (res : list (string * string)) :
  range_query t start_key end_key = Ok res ->
  forall key v, (key, v) ∈ res ->
    in_range start_key end_key key = true
    /\ exists r n j, nodes t !! r = Some n
                     /\ keys n !! j = Some key /\ values n !! j = Some v.
Proof.
  unfold range_query.
  destruct (_find_leaf _ _ _ _) as [leaf| |]; try discriminate.
  rewrite bind_Ok. intros (found & -> & Hfound)%range_chain_sound key v Hin.
  rewrite Forall_forall in Hfound. apply (Hfound (key, v)). by rewrite app_nil_l in Hin.
Qed.

(** X4. Whatever the shape of the tree, every pair [range_query] returns
    has its key within [start_key, end_key] and is an entry of a node of
    the tree (key and value at the same position). *)
Theorem range_query_returns_stored_entries_in_range
    (t : BPlusTree) (start_key end_key : string) (res : list (string * string)) :
  range_query t start_key end_key = Ok res ->
  forall key v, (key, v) ∈ res ->
    in_range start_key end_key key = true
    /\ exists r n j, nodes t !! r = Some n
                     /\ keys n !! j = Some key /\ values n !! j = Some v.
Proof. apply range_query_sound_aux. Qed.

Lemma range_query_returns_stored_entries_in_range_witness :
  exists t res,
    tree6 = Ok t /\ range_query t "2" "5" = Ok res
    /\ in_range "2" "5" "4" = true
    /\ exists r n j, nodes t !! r = Some n
                     /\ keys n !! j = Some "4" /\ values n !! j = Some "value_4".
Proof.
  assert (Ht : exists t res, tree6 = Ok t /\ range_query t "2" "5" = Ok res
                             /\ ("4", "value_4") ∈ res).
  { eexists _, _. split; [vm_compute; reflexivity|].
    split; [vm_compute; reflexivity|].
    do 2 apply list_elem_of_further. apply list_elem_of_here. }
  destruct Ht as (t & res & Ht & Hres & Hin). exists t, res.
  split; [exact Ht|]. split; [exact Hres|].
  exact (range_query_returns_stored_entries_in_range t "2" "5" res Hres "4" "value_4" Hin).
Defined.

(** X5. A range whose end is below its start yields nothing, whatever the
    tree holds. *)
Theorem range_query_reversed_bounds_empty
    (t : BPlusTree) (start_key end_key : string) (res : list (string * string)) :
  str_gt start_key end_key = true ->
  range_query t start_key end_key = Ok res ->
  res = [].
Proof.
  intros Hgt Hres. destruct res as [|[key v] res]; [done|].
  destruct (range_query_sound_aux t start_key end_key _ Hres key v) as [Hin _].
  - apply list_elem_of_here.
  - by rewrite in_range_empty in Hin.
Qed.

Lemma range_query_reversed_bounds_empty_witness :
  exists t res, tree6 = Ok t /\ range_query t "5" "2" = Ok res /\ res = [].
Proof.
  assert (Ht : exists t res, tree6 = Ok t /\ range_query t "5" "2" = Ok res).
  { eexists _, _. split; vm_compute; reflexivity. }
  destruct Ht as (t & res & Ht & Hres). exists t, res.
  split; [exact Ht|]. split; [exact Hres|].
  apply (range_query_reversed_bounds_empty t "5" "2" res); [reflexivity | exact Hres].
Defined.

(** ** Trees that are a single leaf *)

Lemma key_at_absent key ks index : key ∉ ks -> key_at key ks index = false.
Proof.
  intros Hnin. unfold key_at. destruct (ks !! index) as [k|] eqn:Hk; [|done].
  apply String.eqb_neq. intros ->. apply Hnin. by eapply list_elem_of_lookup_2.
Qed.

Lemma pop_NoDup_absent (ks : list string) (i : nat) key :
  NoDup ks -> ks !! i = Some key -> key ∉ take i ks ++ drop (S i) ks.
Proof.
  intros Hnd Hk Hin.
  rewrite <- (take_drop_middle ks i key Hk) in Hnd.
  apply NoDup_app in Hnd as (_ & Hdisj & [Hnin _]%NoDup_cons).
  apply elem_of_app in Hin as [Hin|Hin]; [|done].
  apply (Hdisj key Hin), list_elem_of_here.
Qed.

(** X6. On a tree that is a single leaf with its values beside its keys,
    [delete] of a key the leaf holds returns normally, keeps the root, and
    drops one entry; when the leaf held the key once, [get] then reports it
    absent. *)
Theorem leaf_delete_then_get_absent (t : BPlusTree) (n : Node) (key : string) :
  nodes t !! root t = Some n ->
  is_leaf n = true ->
  length (values n) = length (keys n) ->
  NoDup (keys n) ->
  key ∈ keys n ->
  exists t',
    delete t key = Ok t'
    /\ root t' = root t
    /\ length (leaf_keys (nodes t')) = pred (length (leaf_keys (nodes t)))
    /\ get t' key = Ok None.
Proof.
  intros Hn Hleaf Hlen Hnd Hin.
  assert (Hpy : py_in key (keys n) = true) by (by apply py_in_elem).
  pose proof (py_list_index_lookup _ _ Hpy) as Hk.
  set (i := py_list_index key (keys n)) in *.
  assert (Hi : (i < length (values n))%nat).
  { rewrite Hlen. by eapply lookup_lt_Some. }
  destruct (lookup_lt_is_Some_2 _ _ Hi) as [v Hv].
  set (n' := mkNode (take i (keys n) ++ drop (S i) (keys n))
                    (take i (values n) ++ drop (S i) (values n))
                    (children n) true (next n)).
  assert (Hdel : _delete (fuel_of (nodes t)) (min_keys t) (nodes t) (root t) key
                 = Ok (store (nodes t) (root t) n')).
  { unfold fuel_of, _delete. rewrite (load_Some _ _ _ Hn), bind_Ok, Hleaf.
    unfold _delete_from_leaf. rewrite (load_Some _ _ _ Hn), bind_Ok, Hpy.
    fold i. unfold py_pop. rewrite Hk, Hv, !bind_Ok. by rewrite Hleaf. }
  assert (Hn' : store (nodes t) (root t) n' !! root t = Some n').
  { unfold store. apply list_lookup_insert_eq. by eapply lookup_lt_Some. }
  exists (mkTree (store (nodes t) (root t) n') (root t) (degree t)).
  split; [|split; [done|split]].
  - unfold delete. rewrite Hdel, bind_Ok, (load_Some _ _ _ Hn'), bind_Ok. done.
  - cbn [nodes].
    assert (P : leaf_keys (nodes t) ≡ₚ key :: leaf_keys (store (nodes t) (root t) n')).
    { destruct (_delete_Ok _ _ _ _ _ _ Hdel) as [[Heq Hint] | (w & P & _)]; [|done].
      exfalso. unfold internal_keys in Hint.
      apply list_elem_of_In, in_concat in Hint as (l & Hl & Hkl).
      apply in_map_iff in Hl as (m & <- & Hm).
      apply list_elem_of_In, list_elem_of_lookup in Hm as [j Hj].
      assert (Hsame : store (nodes t) (root t) n' !! root t = Some n) by (by rewrite Heq).
      rewrite Hn' in Hsame. injection Hsame as Hsame.
      assert (length (keys n') = length (keys n)) by (by rewrite Hsame).
      unfold n' in H. cbn [keys] in H. rewrite length_app, length_take, length_drop in H.
      apply lookup_lt_Some in Hk. lia. }
    by rewrite P.
  - unfold get, fuel_of, _search. cbn [nodes root].
    rewrite (load_Some _ _ _ Hn'), bind_Ok. unfold n' at 1. cbn [is_leaf].
    rewrite key_at_absent; [done|]. unfold n'. cbn [keys].
    by apply pop_NoDup_absent.
Qed.

Lemma leaf_delete_then_get_absent_witness :
  exists t t',
    insert (init 3) "k" "v" = Ok t
    /\ delete t "k" = Ok t'
    /\ get t' "k" = Ok None.
Proof.
  assert (Ht : exists t, insert (init 3) "k" "v" = Ok t)
    by (eexists; vm_compute; reflexivity).
  destruct Ht as [t Ht]. exists t.
  destruct (leaf_delete_then_get_absent t (mkNode ["k"] ["v"] [] true None) "k")
    as (t' & Hdel & _ & _ & Hget).
  - revert Ht. vm_compute. by intros [= <-].
  - reflexivity.
  - reflexivity.
  - apply NoDup_singleton.
  - apply list_elem_of_here.
  - by exists t'.
Defined.

Lemma range_leaf_sorted start_key end_key (vs : list string) :
  forall (ks : list string) (i : nat) (vs' : list string) results,
  drop i vs = vs' ->
  length ks = length vs' ->
  StronglySorted String.le ks ->
  exists returned,
    range_leaf start_key end_key vs i ks results
    = Ok (results ++ filter (fun kv : string * string =>
                               Is_true (in_range start_key end_key kv.1)) (zip ks vs'),
          returned).
Proof.
  induction ks as [|key ks IH]; intros i vs' results Hdrop Hlen Hsorted.
  - exists false. simpl. by rewrite app_nil_r.
  - destruct vs' as [|v vs']; [done|]. simpl in Hlen. injection Hlen as Hlen.
    assert (Hv : vs !! i = Some v).
    { rewrite <- (Nat.add_0_r i), <- lookup_drop, Hdrop. done. }
    assert (Hrest : drop (S i) vs = vs').
    { rewrite (drop_S _ _ _ Hv) in Hdrop. by injection Hdrop. }
    apply StronglySorted_inv in Hsorted as [Hsorted Hall].
    cbn [range_leaf zip zip_with]. rewrite filter_cons. cbn [fst].
    destruct (in_range start_key end_key key) eqn:Hin.
    + rewrite (py_index_Some _ _ _ Hv), bind_Ok.
      destruct (IH (S i) vs' (results ++ [(key, v)]) Hrest Hlen Hsorted) as [b Hb].
      exists b. rewrite Hb. destruct (decide (Is_true true)) as [_|[]]; [|done].
      by rewrite <- app_assoc.
    + destruct (decide (Is_true false)) as [[]|_].
      destruct (str_gt key end_key) eqn:Hgt.
      * exists true. f_equal. f_equal.
        assert (Hnone : filter (fun kv : string * string =>
                   Is_true (in_range start_key end_key kv.1)) (zip ks vs') = []).
        { clear IH Hlen Hrest Hdrop. revert vs'.
          induction Hall as [|k ks Hk Hall IHall]; intros vs'; [done|].
          destruct vs' as [|w vs']; [done|].
          cbn [zip zip_with]. rewrite filter_cons. cbn [fst].
          rewrite (in_range_above start_key end_key key k Hgt) by (by apply Is_true_true).
          destruct (decide (Is_true false)) as [[]|_].
          apply IHall. by apply StronglySorted_inv in Hsorted as [? _]. }
        by rewrite Hnone, app_nil_r.
      * apply (IH (S i) vs' results Hrest Hlen Hsorted).
Qed.

(** X7. On a tree that is a single leaf with ascending keys, its values
    beside them, [range_query] returns exactly the entries whose key is in
    [start_key, end_key], in the order of the leaf. *)
Theorem leaf_range_query_exact (t : BPlusTree) (n : Node) (start_key end_key : string) :
  nodes t !! root t = Some n ->
  is_leaf n = true ->
  next n = None ->
  length (keys n) = length (values n) ->
  Sorted String.le (keys n) ->
  range_query t start_key end_key
  = Ok (filter (fun kv : string * string =>
                  Is_true (in_range start_key end_key kv.1))
               (zip (keys n) (values n))).
Proof.
  intros Hn Hleaf Hnext Hlen Hsorted.
  apply (Sorted_StronglySorted _) in Hsorted.
  assert (Hpos : (0 < length (nodes t))%nat).
  { apply lookup_lt_Some in Hn. lia. }
  unfold range_query, fuel_of, _find_leaf.
  rewrite (load_Some _ _ _ Hn), bind_Ok, Hleaf, bind_Ok.
  destruct (length (nodes t)) as [|m] eqn:Hm; [lia|].
  cbn [range_chain]. rewrite (load_Some _ _ _ Hn), bind_Ok.
  destruct (range_leaf_sorted start_key end_key (values n) (keys n) 0
              (values n) [] eq_refl Hlen Hsorted) as [b Hb].
  rewrite Hb, bind_Ok. rewrite app_nil_l. destruct b; [done|].
  rewrite Hnext. done.
Qed.

Lemma leaf_range_query_exact_witness :
  exists t,
    insert_seq (init 3) [("b", "2"); ("a", "1"); ("c", "3")] = Ok t
    /\ range_query t "a" "b" = Ok [("a", "1"); ("b", "2")].
Proof.
  assert (Ht : exists t, insert_seq (init 3) [("b", "2"); ("a", "1"); ("c", "3")] = Ok t)
    by (eexists; vm_compute; reflexivity).
  destruct Ht as [t Ht]. exists t. split; [exact Ht|].
  rewrite (leaf_range_query_exact t (mkNode ["a"; "b"; "c"] ["1"; "2"; "3"] [] true None)).
  - vm_compute. reflexivity.
  - revert Ht. vm_compute. by intros [= <-].
  - reflexivity.
  - reflexivity.
  - reflexivity.
  - repeat constructor.
Defined.

End BPlusMore.

(** * More properties of the LSM engine *)

Module LSMMore.
Import LSM LSMProofs Scenarios.

(** ** Reads after writes *)

Lemma get_after_flush key (m : dict string) (l : list string) name fs max_size dir :
  NoDup (dict_keys m) ->
  get key (mkLSM [] (name :: l) max_size dir) (mkDisk None (<[name := Json m]> fs))
  = match dict_get key m with
    | Some v => Some v
    | None => get_sstables key (mkDisk None (<[name := Json m]> fs)) l
    end.
Proof.
  intros Hnd. unfold get. cbn [memtable sstables dict_get get_sstables].
  pose proof (read_sstable_written (<[name := Json m]> fs) None name m Hnd
                (lookup_insert_eq _ _ _) key) as Hread.
  destruct (read_sstable _ name) as [data|]; simpl in Hread; rewrite <- Hread; [|done].
  done.
Qed.

Lemma get_sstables_other_file key d d' (l : list string) :
  (forall path, path ∈ l -> files d' !! path = files d !! path) ->
  get_sstables key d' l = get_sstables key d l.
Proof.
  induction l as [|path l IH]; intros Hsame; [done|].
  simpl. unfold read_sstable. rewrite (Hsame path) by apply list_elem_of_here.
  rewrite IH; [done|]. intros p Hp. apply Hsame. by apply list_elem_of_further.
Qed.

(** X8. Read your writes, also across a flush: after an [insert] that
    returns, [get] of the key gives the inserted value, whether the entry
    is still in the memtable or has just been flushed to a snapshot. *)
Theorem insert_then_get e key value t d t' d' :
  NoDup (dict_keys (memtable t)) ->
  insert e key value t d = (None, t', d') ->
  get key t' d' = Some value.
Proof.
  intros Hnd Hret.
  destruct (insert_cases e key value t d)
    as [[msg H]|[[Hlt H]|[[Hge [msg H]]|[Hge H]]]];
    rewrite H in Hret; try discriminate; injection Hret as <- <-.
  - unfold get. simpl. by rewrite dict_get_set_eq.
  - rewrite get_after_flush by (by apply dict_set_NoDup).
    by rewrite dict_get_set_eq.
Qed.

Lemma insert_then_get_witness :
  let o := insert (env_ok 1700000000000) "k" "v" (fresh 1).1 (fresh 1).2 in
  memtable o.1.2 = [] /\ get "k" o.1.2 o.2 = Some "v".
Proof.
  split; [reflexivity|].
  eapply (insert_then_get (env_ok 1700000000000) "k" "v" (fresh 1).1 (fresh 1).2).
  - constructor.
  - reflexivity.
Defined.

(** X9. An [insert] that returns leaves the value of every other key as
    [get] saw it before, provided that, when it flushes, the name of the
    new snapshot is not already in the SSTable list. *)
Theorem insert_keeps_other_keys e key value t d t' d' key' :
  NoDup (dict_keys (memtable t)) ->
  key' <> key ->
  Z.of_nat (length (dict_set key value (memtable t))) < max_memtable_size t
  \/ flush_name (sstable_dir t) (now e) ∉ sstables t ->
  insert e key value t d = (None, t', d') ->
  get key' t' d' = get key' t d.
Proof.
  intros Hnd Hne Hfresh Hret.
  destruct (insert_cases e key value t d)
    as [[msg H]|[[Hlt H]|[[Hge [msg H]]|[Hge H]]]];
    rewrite H in Hret; try discriminate; injection Hret as <- <-.
  - unfold get. simpl. rewrite dict_get_set_ne by done.
    destruct (dict_get key' (memtable t)); [done|].
    by apply get_sstables_other_file.
  - destruct Hfresh as [Hlt|Hfresh]; [lia|].
    rewrite get_after_flush by (by apply dict_set_NoDup).
    rewrite dict_get_set_ne by done. unfold get.
    destruct (dict_get key' (memtable t)); [done|].
    apply get_sstables_other_file. intros path Hpath. simpl.
    apply lookup_insert_ne. by intros <-.
Qed.

Lemma insert_keeps_other_keys_witness :
  let s := overwritten_after_flush in
  let o := insert (env_ok 1700000000003) "c" "3" s.1 s.2 in
  o.1.1 = None /\ get "a" o.1.2 o.2 = Some "1".
Proof.
  intros s o. split; [reflexivity|].
  rewrite (insert_keeps_other_keys (env_ok 1700000000003) "c" "3" s.1 s.2 o.1.2 o.2 "a").
  - reflexivity.
  - apply (bool_decide_unpack _). vm_compute. reflexivity.
  - discriminate.
  - right. apply (bool_decide_unpack _). vm_compute. reflexivity.
  - reflexivity.
Defined.



(** ** Start-up and [clear] *)

Lemma glob_sstables_elem dir d path :
  path ∈ glob_sstables dir d <->
  glob_match dir path = true /\ is_Some (files d !! path).
Proof.
  unfold glob_sstables. rewrite list_elem_of_filter, Is_true_true.
  change (map fst (map_to_list (files d))) with (fst <$> map_to_list (files d)).
  rewrite list_elem_of_fmap. split.
  - intros [Hm ([p f] & -> & Hin)]. split; [done|].
    apply elem_of_map_to_list in Hin. by exists f.
  - intros [Hm [f Hf]]. split; [done|]. exists (path, f).
    split; [done|]. by apply elem_of_map_to_list.
Qed.

Lemma glob_sstables_NoDup dir d : NoDup (glob_sstables dir d).
Proof.
  unfold glob_sstables. apply NoDup_filter.
  change (map fst (map_to_list (files d))) with (fst <$> map_to_list (files d)).
  apply NoDup_fst_map_to_list.
Qed.

Lemma insert_desc_Permutation x (l : list string) : insert_desc x l ≡ₚ x :: l.
Proof.
  induction l as [|y l IH]; simpl; [done|].
  destruct (String.ltb y x); [done|]. rewrite IH. apply perm_swap.
Qed.

Lemma sorted_reverse_Permutation (l : list string) : sorted_reverse l ≡ₚ l.
Proof.
  induction l as [|x l IH]; simpl; [done|].
  rewrite insert_desc_Permutation. by constructor.
Qed.

Lemma ltb_false_flip a b : String.ltb a b = true -> String.ltb b a = false.
Proof.
  unfold String.ltb. rewrite (String.compare_antisym b a).
  by destruct (String.compare a b).
Qed.

Lemma insert_desc_Sorted x (l : list string) :
  Sorted (fun a b => String.ltb a b = false) l ->
  Sorted (fun a b => String.ltb a b = false) (insert_desc x l).
Proof.
  induction l as [|y l IH]; intros Hs; simpl.
  - by repeat constructor.
  - destruct (String.ltb y x) eqn:Hyx.
    + constructor; [done|]. constructor. by apply ltb_false_flip.
    + apply Sorted_inv in Hs as [Hs Hhd]. constructor; [by apply IH|].
      destruct l as [|z l]; simpl.
      * by constructor.
      * destruct (String.ltb z x); constructor; [done|].
        by inversion Hhd.
Qed.

Lemma sorted_reverse_Sorted (l : list string) :
  Sorted (fun a b => String.ltb a b = false) (sorted_reverse l).
Proof.
  induction l as [|x l IH]; simpl; [constructor|]. by apply insert_desc_Sorted.
Qed.

Lemma ltb_false_neq_gt a b : String.ltb a b = false -> a <> b -> str_gt a b = true.
Proof.
  unfold str_gt, String.ltb. intros Hab Hne.
  rewrite (String.compare_antisym b a).
  destruct (String.compare a b) eqn:E; simpl; try done.
  by apply String.compare_eq_iff in E.
Qed.

Lemma Sorted_strict (l : list string) :
  NoDup l -> Sorted (fun a b => String.ltb a b = false) l ->
  Sorted (fun a b => str_gt a b = true) l.
Proof.
  induction l as [|x l IH]; intros Hnd Hs; [constructor|].
  apply NoDup_cons in Hnd as [Hx Hnd]. apply Sorted_inv in Hs as [Hs Hhd].
  constructor; [by apply IH|].
  destruct Hhd as [|y l Hxy]; constructor.
  apply ltb_false_neq_gt; [done|]. intros ->. apply Hx, list_elem_of_here.
Qed.

(** X11. At start-up the SSTable list is made of exactly the files of the
    directory whose name matches [sstable_*.json], each listed once, in
    strictly descending order of their paths (compared as strings). *)
Theorem load_existing_sstables_lists_matching_files dir d :
  glob_plain dir = true ->
  let l := _load_existing_sstables dir d in
  (forall path, path ∈ l <-> glob_match dir path = true /\ is_Some (files d !! path))
  /\ NoDup l
  /\ Sorted (fun a b => str_gt a b = true) l.
Proof.
  intros _ l. unfold l, _load_existing_sstables.
  assert (Hnd : NoDup (sorted_reverse (glob_sstables dir d))).
  { rewrite sorted_reverse_Permutation. apply glob_sstables_NoDup. }
  split; [|split; [done|]].
  - intros path. by rewrite sorted_reverse_Permutation, glob_sstables_elem.
  - apply Sorted_strict; [done | apply sorted_reverse_Sorted].
Qed.

Lemma load_existing_sstables_lists_matching_files_witness :
  let l := _load_existing_sstables "sstables" after_compact_and_flush.2 in
  NoDup l /\ Sorted (fun a b => str_gt a b = true) l.
Proof.
  destruct (load_existing_sstables_lists_matching_files "sstables"
              after_compact_and_flush.2 eq_refl) as (_ & Hnd & Hs).
  by split.
Defined.




(** ** Snapshot names *)



















(** ** Recovery from a log with foreign lines *)

Lemma contains_char_lstrip c s :
  contains_char c s = false -> contains_char c (lstrip s) = false.
Proof.
  induction s as [|c' s IH]; [done|].
  intros Hs. cbn [lstrip]. destruct (py_isspace c'); [|done].
  apply IH. simpl in Hs. by apply orb_false_iff in Hs as [_ ?].
Qed.

Lemma contains_char_rstrip c s :
  contains_char c s = false -> contains_char c (rstrip s) = false.
Proof.
  induction s as [|c' s IH]; [done|].
  simpl. intros [Hc Hs]%orb_false_iff. specialize (IH Hs).
  destruct (rstrip s) as [|c'' r].
  - destruct (py_isspace c'); simpl; [done|]. by rewrite Hc.
  - simpl. simpl in IH. by rewrite Hc, IH.
Qed.

Lemma split_colon_None s : contains_char colon s = false -> split_colon s = None.
Proof.
  induction s as [|c s IH]; [done|].
  simpl. intros [Hc Hs]%orb_false_iff. by rewrite Hc, IH.
Qed.

(** A line without a colon raises [ValueError] at the unpacking and is
    skipped. *)
Lemma replay_junk_line m text :
  contains_char colon text = false ->
  replay_line m (text +:+ String newline "") = m.
Proof.
  intros Hc. unfold replay_line, strip. rewrite split_colon_None; [done|].
  apply contains_char_rstrip, contains_char_lstrip.
  rewrite contains_char_app, Hc. reflexivity.
Qed.

Lemma item_line_no_cr it :
  item_ok it = true -> contains_char carriage_return (item_line it) = false.
Proof.
  destruct it as [key value|text]; simpl.
  - apply wal_line_no_cr.
  - rewrite !andb_true_iff, !negb_true_iff. intros [_ Hcr].
    rewrite contains_char_app, Hcr. reflexivity.
Qed.

Lemma log_text_no_cr items :
  Forall (fun it => item_ok it = true) items ->
  contains_char carriage_return (log_text items) = false.
Proof.
  induction 1 as [|it items Hit _ IH]; [done|].
  simpl. by rewrite contains_char_app, item_line_no_cr, IH.
Qed.

Lemma text_lines_item it s :
  item_ok it = true -> text_lines (item_line it +:+ s) = item_line it :: text_lines s.
Proof.
  assert (Hline : forall a, contains_char newline a = false ->
            text_lines ((a +:+ String newline "") +:+ s)
            = (a +:+ String newline "") :: text_lines s).
  { intros a Ha. rewrite str_app_assoc, str_app_cons, str_app_nil_l.
    by apply text_lines_line. }
  destruct it as [key value|text]; simpl.
  - intros (_ & Hk & _ & Hv & _)%wal_safe_spec.
    replace (wal_line key value) with ((key +:+ ":" +:+ value) +:+ String newline "")
      by (unfold wal_line; by rewrite !str_app_assoc).
    apply Hline. by rewrite !contains_char_app, Hk, Hv.
  - rewrite !andb_true_iff, !negb_true_iff. intros [[_ Hnl] _]. by apply Hline.
Qed.

Lemma text_lines_log_text items :
  Forall (fun it => item_ok it = true) items ->
  text_lines (log_text items) = item_line <$> items.
Proof.
  induction 1 as [|it items Hit _ IH]; [done|].
  csimpl. rewrite <- IH. by apply text_lines_item.
Qed.

Lemma replay_items items m :
  Forall (fun it => item_ok it = true) items ->
  fold_left replay_line (item_line <$> items) m = dict_update m (entries_of items).
Proof.
  intros Hok. revert m.
  induction Hok as [|it items Hit _ IH]; intros m; [done|].
  csimpl. destruct it as [key value|text]; simpl in Hit |- *.
  - rewrite replay_wal_line by done. apply IH.
  - rewrite replay_junk_line; [apply IH|].
    apply andb_true_iff in Hit as [[Hc _]%andb_true_iff _].
    by apply negb_true_iff.
Qed.

(** X15. Start-up recovery skips the lines it cannot split: over a log
    that holds lines written by [insert] (safe for the line format) mixed
    with lines without a colon, empty lines among them, the constructor
    builds the memtable from the well-formed lines alone, assigned in log
    order. *)
Theorem recovery_skips_foreign_lines items fs max_size dir :
  Forall (fun it => item_ok it = true) items ->
  memtable (init max_size dir (mkDisk (Some (log_text items)) fs))
  = dict_update [] (entries_of items).
Proof.
  intros Hok. unfold init, _recover_from_wal, file_lines. cbn [memtable wal].
  rewrite universal_newlines_id by (by apply log_text_no_cr).
  rewrite text_lines_log_text by done. by apply replay_items.
Qed.

Lemma recovery_skips_foreign_lines_witness :
  memtable (init 5 "sstables"
              (mkDisk (Some (log_text [Entry "a" "1"; Junk "garbage"; Entry "b" "2";
                                       Junk ""; Entry "a" "3"])) ∅))
  = [("a", "3"); ("b", "2")].
Proof.
  rewrite recovery_skips_foreign_lines; [reflexivity|].
  repeat constructor.
Defined.

(** ** Unreadable snapshots and empty ranges *)



Lemma range_items_reversed start_key end_key (data : dict string) :
  str_gt start_key end_key = true -> range_items start_key end_key data = [].
Proof.
  intros Hgt. unfold range_items. induction data as [|kv data IH]; [done|].
  rewrite filter_cons_False; [done|].
  rewrite (BPlusMore.in_range_empty _ _ _ Hgt). by intros [].
Qed.

(** X17. A range whose end is below its start yields the empty list,
    whatever the memtable and the snapshots hold. *)
Theorem lsm_reversed_range_is_empty start_key end_key t d :
  str_gt start_key end_key = true -> range_query start_key end_key t d = [].
Proof.
  intros Hgt. unfold range_query. rewrite range_items_reversed by done. simpl.
  induction (sstables t) as [|path l IH]; [done|].
  simpl. rewrite IH. destruct (read_sstable d path); [|done].
  by rewrite range_items_reversed.
Qed.

Lemma lsm_reversed_range_is_empty_witness :
  range_query "c" "a" overwritten_after_flush.1 overwritten_after_flush.2 = []
  /\ range_query "a" "c" overwritten_after_flush.1 overwritten_after_flush.2 <> [].
Proof.
  split.
  - apply lsm_reversed_range_is_empty. reflexivity.
  - vm_compute. discriminate.
Defined.

End LSMMore.

(** * Properties of the engines of the request layer ([app.py]) *)

Module AppMore.
Import AppLSMProofs Scenarios.

Lemma dict_get_set {V} key k (v : V) (d : dict V) :
  dict_get k (dict_set key v d) = if String.eqb key k then Some v else dict_get k d.
Proof.
  destruct (String.eqb_spec key k) as [->|Hne].
  - apply dict_get_set_eq.
  - by apply dict_get_set_ne.
Qed.

Lemma dict_keys_remove_sublist {V} key (d : dict V) :
  dict_keys (dict_remove key d) `sublist_of` dict_keys d.
Proof.
  induction d as [|[k0 v0] d IH]; simpl; [done|].
  destruct (String.eqb k0 key).
  - by apply sublist_cons.
  - by apply sublist_skip.
Qed.

Lemma dict_get_remove {V} key k (d : dict V) :
  NoDup (dict_keys d) ->
  dict_get k (dict_remove key d) = if String.eqb key k then None else dict_get k d.
Proof.
  induction d as [|[k0 v0] d IH]; simpl.
  - intros _. by destruct (String.eqb key k).
  - intros [Hnin Hnd]%NoDup_cons. destruct (String.eqb_spec k0 key) as [->|Hne0].
    + destruct (String.eqb_spec key k) as [->|Hne]; [|done].
      by apply dict_get_None.
    + simpl. rewrite IH by done.
      destruct (String.eqb_spec k0 k) as [->|Hne1]; [|done].
      by rewrite (proj2 (String.eqb_neq key k)) by done.
Qed.

Lemma dict_update_fresh {V} (m items : dict V) :
  NoDup (dict_keys m ++ dict_keys items) -> dict_update m items = m ++ items.
Proof.
  unfold dict_update. revert m.
  induction items as [|[k v] items IH]; intros m Hnd; simpl.
  - by rewrite app_nil_r.
  - unfold dict_keys in Hnd. csimpl in Hnd.
    assert (Hk : k ∉ dict_keys m).
    { apply NoDup_app in Hnd as (_ & Hdisj & _). intros Hin.
      apply (Hdisj k Hin), list_elem_of_here. }
    rewrite dict_set_fresh by done. rewrite IH.
    + by rewrite <- app_assoc.
    + unfold dict_keys. rewrite fmap_app, <- app_assoc. exact Hnd.
Qed.

Lemma dict_keys_filter_sublist {V} (P : string * V -> Prop) `{!forall x, Decision (P x)}
    (d : dict V) :
  dict_keys (filter P d) `sublist_of` dict_keys d.
Proof. unfold dict_keys. apply fmap_sublist, sublist_filter. Qed.

(** ** The dictionary-backed B+Tree *)

(** X18. The dictionary-backed B+Tree is a map: [get] after [insert]
    reads the new value for the key and the old one for any other key;
    after [delete] the key is gone and the others are untouched; a
    [delete] of a key that is not stored changes nothing and raises
    nothing. *)
Theorem app_bplus_get_after_write key k value (t : AppBPlus.BPlusTree) :
  NoDup (dict_keys (AppBPlus.data t)) ->
  AppBPlus.get k (AppBPlus.insert key value t)
    = (if String.eqb key k then Some value else AppBPlus.get k t)
  /\ AppBPlus.get k (AppBPlus.delete key t)
    = (if String.eqb key k then None else AppBPlus.get k t)
  /\ (AppBPlus.get key t = None -> AppBPlus.delete key t = t)
  /\ NoDup (dict_keys (AppBPlus.data (AppBPlus.insert key value t)))
  /\ NoDup (dict_keys (AppBPlus.data (AppBPlus.delete key t))).
Proof.
  intros Hnd. unfold AppBPlus.get, AppBPlus.insert, AppBPlus.delete, dict_in.
  cbn [AppBPlus.data]. repeat split.
  - apply dict_get_set.
  - destruct (dict_get key (AppBPlus.data t)) eqn:E; cbn [AppBPlus.data].
    + by apply dict_get_remove.
    + destruct (String.eqb_spec key k) as [->|]; done.
  - by intros ->.
  - by apply dict_set_NoDup.
  - destruct (dict_get key (AppBPlus.data t)); cbn [AppBPlus.data]; [|done].
    eapply sublist_NoDup; [exact Hnd | apply dict_keys_remove_sublist].
Qed.

Lemma app_bplus_get_after_write_witness :
  let t := AppBPlus.insert "b" "2" (AppBPlus.insert "a" "1" (AppBPlus.init 3)) in
  AppBPlus.get "a" (AppBPlus.insert "a" "9" t) = Some "9"
  /\ AppBPlus.get "a" (AppBPlus.delete "a" t) = None
  /\ AppBPlus.get "b" (AppBPlus.delete "a" t) = Some "2".
Proof.
  intros t.
  assert (Hnd : NoDup (dict_keys (AppBPlus.data t))).
  { change (NoDup ["a"; "b"]). apply NoDup_cons. split.
    - intros Hin. apply list_elem_of_singleton in Hin. discriminate.
    - apply NoDup_singleton. }
  destruct (app_bplus_get_after_write "a" "a" "9" t Hnd) as (Hins & Hdel & _).
  destruct (app_bplus_get_after_write "a" "b" "9" t Hnd) as (_ & Hother & _).
  split; [exact Hins|]. split; [exact Hdel|exact Hother].
Defined.

(** X19. [range_query] of the dictionary-backed B+Tree returns exactly
    the stored entries with [start_key <= key <= end_key], each once, in
    the order the keys were first inserted (not in key order); with the
    end below the start it returns the empty dictionary. *)
Theorem app_bplus_range_query_exact start_key end_key (t : AppBPlus.BPlusTree) :
  NoDup (dict_keys (AppBPlus.data t)) ->
  AppBPlus.range_query start_key end_key t
    = filter (fun kv => Is_true (in_range start_key end_key kv.1)) (AppBPlus.data t)
  /\ (str_gt start_key end_key = true -> AppBPlus.range_query start_key end_key t = []).
Proof.
  intros Hnd.
  assert (Heq : AppBPlus.range_query start_key end_key t
    = filter (fun kv => Is_true (in_range start_key end_key kv.1)) (AppBPlus.data t)).
  { unfold AppBPlus.range_query. rewrite dict_update_fresh; [done|].
    simpl. eapply sublist_NoDup; [exact Hnd | apply dict_keys_filter_sublist]. }
  split; [exact Heq|].
  intros Hgt. rewrite Heq. clear Heq Hnd.
  induction (AppBPlus.data t) as [|kv data IH]; [done|].
  rewrite filter_cons_False; [done|].
  rewrite (BPlusMore.in_range_empty _ _ _ Hgt). by intros [].
Qed.

Lemma app_bplus_range_query_exact_witness :
  let t := AppBPlus.insert "a" "1" (AppBPlus.insert "c" "3"
             (AppBPlus.insert "b" "2" (AppBPlus.init 3))) in
  AppBPlus.range_query "a" "b" t = [("b", "2"); ("a", "1")]
  /\ AppBPlus.range_query "b" "a" t = [].
Proof.
  intros t.
  assert (Hnd : NoDup (dict_keys (AppBPlus.data t))).
  { change (NoDup ["b"; "c"; "a"]). repeat (apply NoDup_cons; split);
      [| |by intros ?%elem_of_nil|apply NoDup_nil_2].
    - intros Hin. repeat (apply elem_of_cons in Hin as [Hin|Hin]; [discriminate|]).
      by apply elem_of_nil in Hin.
    - intros Hin. repeat (apply elem_of_cons in Hin as [Hin|Hin]; [discriminate|]).
      by apply elem_of_nil in Hin. }
  destruct (app_bplus_range_query_exact "a" "b" t Hnd) as [Hab _].
  destruct (app_bplus_range_query_exact "b" "a" t Hnd) as [_ Hba].
  split; [rewrite Hab; reflexivity | apply Hba; reflexivity].
Defined.

(** ** The in-memory LSM engine *)

Lemma newest_binding_put key value k (t : AppLSM.LSMTree) :
  AppLSM.newest_binding k (AppLSM.put key value t)
  = if String.eqb key k then Some value else AppLSM.newest_binding k t.
Proof.
  unfold AppLSM.newest_binding, AppLSM.put.
  cbn [AppLSM.memtable AppLSM.sstables AppLSM.max_memtable_size].
  assert (Hgoal : AppLSM.first_binding k
                    (dict_set key value (AppLSM.memtable t) :: reverse (AppLSM.sstables t))
                  = if String.eqb key k then Some value
                    else AppLSM.first_binding k
                           (AppLSM.memtable t :: reverse (AppLSM.sstables t))).
  { simpl. rewrite dict_get_set. by destruct (String.eqb key k). }
  destruct (_ >=? _).
  - unfold AppLSM._flush_to_disk.
    cbn [AppLSM.memtable AppLSM.sstables AppLSM.max_memtable_size].
    rewrite reverse_snoc. exact Hgoal.
  - exact Hgoal.
Qed.

(** X20. Reads after writes on the in-memory LSM engine, also when the
    write triggers a flush: after [insert] the key reads as the new value,
    after [delete] it reads as [None], and every other key reads as
    before. *)
Theorem app_lsm_get_after_write key k (t : AppLSM.LSMTree) :
  (forall value, AppLSM.get k (AppLSM.insert key value t)
                 = if String.eqb key k then Some value else AppLSM.get k t)
  /\ AppLSM.get k (AppLSM.delete key t)
     = (if String.eqb key k then None else AppLSM.get k t).
Proof.
  unfold AppLSM.get, AppLSM.insert, AppLSM.delete. split; [intros value|];
    rewrite newest_binding_put; by destruct (String.eqb key k).
Qed.

(** X21. A deleted key is not hidden from [range_query]: the mark that
    [delete] leaves is listed under the key with value [None], although
    [get] answers [None] as for a key that was never stored. *)
Theorem app_lsm_range_query_lists_deleted_key start_key end_key key (t : AppLSM.LSMTree) :
  NoDup (dict_keys (AppLSM.memtable t)) ->
  in_range start_key end_key key = true ->
  dict_get key (AppLSM.range_query start_key end_key (AppLSM.delete key t)) = Some None
  /\ AppLSM.get key (AppLSM.delete key t) = None.
Proof.
  intros Hnd Hin.
  assert (Hnd' : NoDup (dict_keys (AppLSM.memtable (AppLSM.delete key t)))).
  { unfold AppLSM.delete, AppLSM.put.
    cbn [AppLSM.memtable AppLSM.sstables AppLSM.max_memtable_size].
    destruct (_ >=? _); cbn [AppLSM._flush_to_disk AppLSM.memtable].
    - constructor.
    - by apply dict_set_NoDup. }
  destruct (app_range_query_unique_newest start_key end_key _ Hnd') as [_ Hget].
  split.
  - rewrite Hget, Hin. unfold AppLSM.delete.
    by rewrite newest_binding_put, String.eqb_refl.
  - unfold AppLSM.get, AppLSM.delete. by rewrite newest_binding_put, String.eqb_refl.
Qed.

Lemma app_lsm_range_query_lists_deleted_key_witness :
  AppLSM.range_query "a" "c" (AppLSM.delete "b" app_overwritten_after_flush)
  = [("b", None); ("a", Some "1")]
  /\ dict_get "b" (AppLSM.range_query "a" "c"
                     (AppLSM.delete "b" app_overwritten_after_flush)) = Some None.
Proof.
  split; [reflexivity|].
  apply (app_lsm_range_query_lists_deleted_key "a" "c" "b" app_overwritten_after_flush).
  - change (NoDup ["b"]). apply NoDup_singleton.
  - reflexivity.
Defined.

(** X22. With a positive threshold the memtable of the in-memory LSM
    engine stays below it after every write: a write that reaches the
    threshold moves the whole memtable to the end of the snapshot list. *)
Theorem app_lsm_memtable_bound key value (t : AppLSM.LSMTree) :
  0 < AppLSM.max_memtable_size t ->
  let t' := AppLSM.put key value t in
  Z.of_nat (length (AppLSM.memtable t')) < AppLSM.max_memtable_size t
  /\ AppLSM.max_memtable_size t' = AppLSM.max_memtable_size t
  /\ (AppLSM.memtable t' = [] ->
      AppLSM.sstables t'
      = AppLSM.sstables t ++ [dict_set key value (AppLSM.memtable t)]).
Proof.
  intros Hpos t'. unfold t', AppLSM.put.
  cbn [AppLSM.memtable AppLSM.sstables AppLSM.max_memtable_size].
  rewrite Z.geb_leb.
  destruct (Z.leb_spec (AppLSM.max_memtable_size t)
              (Z.of_nat (length (dict_set key value (AppLSM.memtable t)))));
    cbn [AppLSM._flush_to_disk AppLSM.memtable AppLSM.sstables AppLSM.max_memtable_size
         length].
  - split; [lia|]. split; [done|]. done.
  - split; [lia|]. split; [done|]. intros Hnil. by apply dict_set_not_nil in Hnil.
Qed.

Lemma app_lsm_memtable_bound_witness :
  let t := AppLSM.insert "a" "1" (AppLSM.init 2) in
  Z.of_nat (length (AppLSM.memtable (AppLSM.put "b" (Some "2") t))) < 2
  /\ AppLSM.sstables (AppLSM.put "b" (Some "2") t) = [[("a", Some "1"); ("b", Some "2")]].
Proof.
  intros t.
  destruct (app_lsm_memtable_bound "b" (Some "2") t) as (Hlt & _ & Hflush).
  - reflexivity.
  - split; [exact Hlt|]. apply Hflush. reflexivity.
Defined.

End AppMore.
